(** * Encrypted attachments: crypto/attachment/attachments.go

    A shallow embedding of the Go package [attachment] and of the parts of
    the Go standard library it calls (encoding/base64, crypto/aes,
    crypto/cipher, crypto/sha256, crypto/rand), followed by the properties
    of [NewEncryptedFile], [Encrypt] and [Decrypt].

    Conventions.
    - A Go [byte] is a [Byte.byte]; [uint(b)] is [byte_Z b] and the
      truncating conversion [byte(v)] is [Z_byte v].
    - A Go [string] is a [string]; [[]byte(s)] is
      [String.list_byte_of_string s].
    - A fixed-size array [[n]byte] is an [array n]: a list of bytes that
      carries the proof that it has [n] entries.
    - A slice [[]byte] is a reference into a store of byte buffers
      ([slice], [heap]); [None] is the nil slice.
    - A method with receiver [ef *EncryptedFile] is a computation in the
      monad [M world], whose state holds the object [ef] points to and the
      byte buffers; a computation either returns or panics. *)

From stdpp Require Import base numbers list strings.
From Stdlib Require Import ZArith Lia Strings.Byte Init.Byte.

(** ** Bytes and fixed-size arrays *)

Definition byte_Z (b : byte) : Z := Z.of_N (Byte.to_N b).

Definition Z_byte (z : Z) : byte :=
  default x00 (Byte.of_N (Z.to_N (z `mod` 256))).

#[global] Instance byte_eq_dec : EqDecision byte := Byte.byte_eq_dec.

Record array (n : nat) : Type := Array {
  elems : list byte;
  elems_length : length elems = n
}.
Arguments Array {n} _ _.
Arguments elems {n} _.
Arguments elems_length {n} _.

Lemma fill_length (n : nat) (l : list byte) :
  length (take n (l ++ replicate n x00)) = n.
Proof. rewrite length_take, length_app, length_replicate. lia. Qed.

(** [fill n l] is the zeroed array [[n]byte] after [l] has been copied to
    its front. *)
Definition fill (n : nat) (l : list byte) : array n :=
  Array (take n (l ++ replicate n x00)) (fill_length n l).

Lemma array_eq {n : nat} (x y : array n) : elems x = elems y → x = y.
Proof.
  destruct x as [l Hl], y as [l' Hl']. simpl. intros ->.
  f_equal. apply proof_irrel.
Qed.

(** [x == y] on arrays compares their entries. *)
#[global] Instance array_eq_dec (n : nat) : EqDecision (array n).
Proof.
  intros x y. destruct (decide (elems x = elems y)) as [H | H].
  - left. apply array_eq, H.
  - right. intros ->. apply H. reflexivity.
Defined.

(** ** Outcomes, Go errors and the state monad *)

(** Values of Go's [error] interface that this package can see; the nil
    error is [None : option error]. *)
Inductive error : Type :=
| HashMismatch
| UnsupportedVersion
| UnsupportedAlgorithm
| InvalidKey
| InvalidInitVector
| CorruptInputError (offset : nat)   (* encoding/base64 *)
| KeySizeError (size : nat)          (* crypto/aes *)
| EntropyError.                      (* crypto/rand *)

#[global] Instance error_eq_dec : EqDecision error.
Proof. solve_decision. Defined.

Inductive panic : Type :=
| NilDereference          (* invalid memory address or nil pointer dereference *)
| IndexOutOfRange         (* index out of range *)
| OutputSmallerThanInput  (* crypto/cipher: output smaller than input *)
| IVLengthMismatch        (* cipher.NewCTR: IV length must equal block size *)
| InputNotFullBlock       (* crypto/aes: input not full block *)
| PanicError (err : error). (* panic(err) *)

Inductive outcome (A : Type) : Type :=
| Returns (a : A)
| Panics (p : panic).
Arguments Returns {A} _.
Arguments Panics {A} _.

Definition M (S A : Type) : Type := S → outcome A * S.

Definition ret {S A} (a : A) : M S A := λ s, (Returns a, s).

Definition bind {S A B} (m : M S A) (k : A → M S B) : M S B :=
  λ s, match m s with
       | (Returns a, s') => k a s'
       | (Panics p, s') => (Panics p, s')
       end.

Definition raise {S A} (p : panic) : M S A := λ s, (Panics p, s).

Notation "'do' x <- m ; k" := (bind m (λ x, k))
  (at level 10, x name, m at level 100, k at level 200).
Notation "'do' ' p <- m ; k" := (bind m (λ x, match x with p => k end))
  (at level 10, p pattern, m at level 100, k at level 200).
Notation "m ;; k" := (bind m (λ _, k))
  (at level 100, k at level 200, right associativity).

(** Sequencing for computations that only return or panic. *)
Definition and_then {A B} (o : outcome A) (k : A → outcome B) : outcome B :=
  match o with
  | Returns a => k a
  | Panics p => Panics p
  end.

Definition lift {S A} (o : outcome A) : M S A := λ s, (o, s).

(** ** encoding/base64, for the two unpadded encodings *)

Module base64.

Local Open Scope Z_scope.

Definition encodeStd : string :=
  "ABCDEFGHIJKLMNOPQRSTUVWXYZabcdefghijklmnopqrstuvwxyz0123456789+/".
Definition encodeURL : string :=
  "ABCDEFGHIJKLMNOPQRSTUVWXYZabcdefghijklmnopqrstuvwxyz0123456789-_".

(** An [Encoding] with [padChar = NoPadding] and [strict = false], the
    only kind this package uses. *)
Record Encoding : Type := NewEncoding { alphabet : list byte }.

Definition RawStdEncoding : Encoding :=
  NewEncoding (String.list_byte_of_string encodeStd).
Definition RawURLEncoding : Encoding :=
  NewEncoding (String.list_byte_of_string encodeURL).

(** [enc.encode[v]] *)
Definition encode (enc : Encoding) (v : Z) : byte :=
  nth (Z.to_nat v) (alphabet enc) x00.

Fixpoint index_of (c : byte) (l : list byte) (i : Z) : Z :=
  match l with
  | [] => 0xFF
  | x :: l' => if decide (x = c) then i else index_of c l' (i + 1)
  end.

(** [enc.decodeMap[c]]: the position of [c] in the alphabet, 0xFF for a
    byte outside it. *)
Definition decodeMap (enc : Encoding) (c : byte) : Z :=
  index_of c (alphabet enc) 0.

Definition EncodedLen (n : nat) : nat := ((n * 8 + 5) / 6)%nat.

Fixpoint Encode (enc : Encoding) (src : list byte) : list byte :=
  match src with
  | a :: b :: c :: rest =>
      let val := Z.lor (Z.lor (byte_Z a ≪ 16) (byte_Z b ≪ 8)) (byte_Z c) in
      encode enc (Z.land (val ≫ 18) 0x3F) ::
      encode enc (Z.land (val ≫ 12) 0x3F) ::
      encode enc (Z.land (val ≫ 6) 0x3F) ::
      encode enc (Z.land val 0x3F) :: Encode enc rest
  | [a; b] =>
      let val := Z.lor (byte_Z a ≪ 16) (byte_Z b ≪ 8) in
      [encode enc (Z.land (val ≫ 18) 0x3F);
       encode enc (Z.land (val ≫ 12) 0x3F);
       encode enc (Z.land (val ≫ 6) 0x3F)]
  | [a] =>
      let val := byte_Z a ≪ 16 in
      [encode enc (Z.land (val ≫ 18) 0x3F);
       encode enc (Z.land (val ≫ 12) 0x3F)]
  | [] => []
  end.

Definition EncodeToString (enc : Encoding) (src : list byte) : string :=
  String.string_of_list_byte (Encode enc src).

(** The bytes [decodeQuantum] stores for a quantum of [length dbuf]
    six-bit values ([dlen - 1] of them). *)
Definition quantumBytes (dbuf : list Z) : list byte :=
  let val := Z.lor (Z.lor (Z.lor (nth 0 dbuf 0 ≪ 18) (nth 1 dbuf 0 ≪ 12))
                          (nth 2 dbuf 0 ≪ 6)) (nth 3 dbuf 0) in
  take (length dbuf - 1) [Z_byte (val ≫ 16); Z_byte (val ≫ 8); Z_byte val].

(** The loop of [Decode] around [decodeQuantum], as one recursion over the
    unread input: [si] is the read position, [dbuf] the six-bit values of
    the quantum being read, [out] the bytes stored so far. Line feeds and
    carriage returns are skipped; a quantum of one character and a byte
    outside the alphabet are corrupt input. *)
Fixpoint decodeQuanta (enc : Encoding) (src : list byte) (si : nat)
    (dbuf : list Z) (out : list byte) : list byte * option error :=
  match src with
  | [] =>
      match dbuf with
      | [] => (out, None)
      | [_] => (out, Some (CorruptInputError (si - 1)))
      | _ => (out ++ quantumBytes dbuf, None)
      end
  | c :: src' =>
      let v := decodeMap enc c in
      if decide (v ≠ 0xFF) then
        let dbuf' := dbuf ++ [v] in
        if decide (length dbuf' = 4%nat)
        then decodeQuanta enc src' (S si) [] (out ++ quantumBytes dbuf')
        else decodeQuanta enc src' (S si) dbuf' out
      else if decide (c = "010"%byte ∨ c = "013"%byte)
        then decodeQuanta enc src' (S si) dbuf out
        else (out, Some (CorruptInputError si))
  end.

(** [enc.Decode(dst, src)] for a destination that holds zeros on entry, as
    at every call site of this package: the new contents of [dst], the
    number of bytes written and the error. Storing past the end of [dst]
    panics. *)
Definition Decode (enc : Encoding) (dst src : list byte)
    : outcome (list byte * nat * option error) :=
  let '(out, err) := decodeQuanta enc src 0 [] [] in
  if decide (length out ≤ length dst)%nat
  then Returns (out ++ drop (length out) dst, length out, err)
  else Panics IndexOutOfRange.

End base64.

(** ** encoding/binary: big-endian words *)

Module binary.

Local Open Scope Z_scope.

(** [binary.BigEndian.Uint32(b[i:])] *)
Definition Uint32 (b : list byte) (i : nat) : Z :=
  Z.lor (Z.lor (Z.lor (byte_Z (nth i b x00) ≪ 24)
                      (byte_Z (nth (i + 1) b x00) ≪ 16))
               (byte_Z (nth (i + 2) b x00) ≪ 8))
        (byte_Z (nth (i + 3) b x00)).

(** [binary.BigEndian.PutUint32]: the four bytes stored. *)
Definition PutUint32 (v : Z) : list byte :=
  [Z_byte (v ≫ 24); Z_byte (v ≫ 16); Z_byte (v ≫ 8); Z_byte v].

(** [binary.BigEndian.PutUint64]: the eight bytes stored. *)
Definition PutUint64 (v : Z) : list byte :=
  PutUint32 (v ≫ 32) ++ PutUint32 v.

End binary.

(** ** crypto/aes: the portable block cipher (block.go, const.go) *)

Module aes.

Import binary.
Local Open Scope Z_scope.

Definition BlockSize : nat := 16.

Definition poly : Z := 0x11B.

(** Multiplication of two polynomials over GF(2) modulo [poly]. *)
Fixpoint mul_loop (n : nat) (i j s : Z) : Z :=
  match n with
  | O => s
  | S n' =>
      let s := if Z.testbit j 0 then Z.lxor s i else s in
      let i := i ≪ 1 in
      let i := if Z.testbit i 8 then Z.lxor i poly else i in
      mul_loop n' i (j ≫ 1) s
  end.

Definition mul (b c : Z) : Z := mul_loop 8 b c 0.

(** [b] to the power [n]; the multiplicative inverse is the power 254. *)
Fixpoint pow (b : Z) (n : nat) : Z :=
  match n with
  | O => 1
  | S n' => mul b (pow b n')
  end.

Definition rotl8 (b : Z) (k : Z) : Z :=
  Z.lor (b ≪ k) (b ≫ (8 - k)) `mod` 256.

(** FIPS-197 section 5.1.1: the inverse followed by the affine map. *)
Definition sbox_entry (x : Z) : Z :=
  let b := pow x 254 in
  Z.lxor (Z.lxor (Z.lxor (Z.lxor (Z.lxor b (rotl8 b 1)) (rotl8 b 2))
                         (rotl8 b 3)) (rotl8 b 4)) 0x63.

Definition sbox0_table : list Z :=
  Eval vm_compute in map (λ i, sbox_entry (Z.of_nat i)) (seq 0 256).

Definition sbox0 (x : Z) : Z := nth (Z.to_nat x) sbox0_table 0.

(** [powx[i]]: powers of x, the round constants of the key schedule. *)
Definition powx (i : Z) : Z := pow 2 (Z.to_nat i).

(** The lookup tables te0..te3 of the middle rounds, as functions. *)
Definition te0 (x : Z) : Z :=
  let s := sbox0 x in
  Z.lor (Z.lor (Z.lor (mul s 2 ≪ 24) (s ≪ 16)) (s ≪ 8)) (mul s 3).
Definition rotr8_32 (w : Z) : Z := Z.lor ((w ≪ 24) `mod` 2^32) (w ≫ 8).
Definition te1 (x : Z) : Z := rotr8_32 (te0 x).
Definition te2 (x : Z) : Z := rotr8_32 (te1 x).
Definition te3 (x : Z) : Z := rotr8_32 (te2 x).

Definition uint8 (w : Z) : Z := w `mod` 256.

(** Apply [sbox0] to each byte in [w]. *)
Definition subw (w : Z) : Z :=
  Z.lor (Z.lor (Z.lor (sbox0 (w ≫ 24) ≪ 24)
                      (sbox0 (Z.land (w ≫ 16) 0xFF) ≪ 16))
               (sbox0 (Z.land (w ≫ 8) 0xFF) ≪ 8))
        (sbox0 (Z.land w 0xFF)).

(** Rotate a word left by one byte. *)
Definition rotw (w : Z) : Z := Z.lor ((w ≪ 8) `mod` 2^32) (w ≫ 24).

(** [expandKeyGo]: the encryption half of the key schedule; [enc] holds
    the words computed so far and [count] more are appended. *)
Fixpoint expandKeyGo (nk : nat) (count : nat) (enc : list Z) : list Z :=
  match count with
  | O => enc
  | S count' =>
      let i := length enc in
      let t := nth (i - 1) enc 0 in
      let t := if decide (i `mod` nk = 0)%nat
               then Z.lxor (subw (rotw t)) (powx (Z.of_nat (i / nk - 1)) ≪ 24)
               else if decide (6 < nk ∧ i `mod` nk = 4)%nat then subw t
               else t in
      expandKeyGo nk count' (enc ++ [Z.lxor (nth (i - nk) enc 0) t])
  end.

(** One middle round on the four state words. *)
Definition round (xk : list Z) (k : nat) (s : Z * Z * Z * Z) : Z * Z * Z * Z :=
  let '(s0, s1, s2, s3) := s in
  let t (a b c d : Z) (j : nat) :=
    Z.lxor (Z.lxor (Z.lxor (Z.lxor (te0 (uint8 (a ≫ 24))) (te1 (uint8 (b ≫ 16))))
                           (te2 (uint8 (c ≫ 8)))) (te3 (uint8 d)))
           (nth (k + j) xk 0) in
  (t s0 s1 s2 s3 0%nat, t s1 s2 s3 s0 1%nat, t s2 s3 s0 s1 2%nat, t s3 s0 s1 s2 3%nat).

Fixpoint rounds (xk : list Z) (nr : nat) (k : nat) (s : Z * Z * Z * Z)
    : nat * (Z * Z * Z * Z) :=
  match nr with
  | O => (k, s)
  | S nr' => rounds xk nr' (k + 4) (round xk k s)
  end.

(** [encryptBlockGo(xk, dst, src)]: the sixteen bytes stored in [dst]. *)
Definition encryptBlockGo (xk : list Z) (src : list byte) : list byte :=
  let s0 := Z.lxor (Uint32 src 0) (nth 0 xk 0) in
  let s1 := Z.lxor (Uint32 src 4) (nth 1 xk 0) in
  let s2 := Z.lxor (Uint32 src 8) (nth 2 xk 0) in
  let s3 := Z.lxor (Uint32 src 12) (nth 3 xk 0) in
  let nr := (length xk / 4 - 2)%nat in
  let '(k, (t0, t1, t2, t3)) := rounds xk nr 4 (s0, s1, s2, s3) in
  let last (a b c d : Z) (j : nat) :=
    Z.lxor (Z.lor (Z.lor (Z.lor (sbox0 (a ≫ 24) ≪ 24)
                                (sbox0 (Z.land (b ≫ 16) 0xFF) ≪ 16))
                         (sbox0 (Z.land (c ≫ 8) 0xFF) ≪ 8))
                  (sbox0 (Z.land d 0xFF)))
           (nth (k + j) xk 0) in
  PutUint32 (last t0 t1 t2 t3 0%nat) ++ PutUint32 (last t1 t2 t3 t0 1%nat) ++
  PutUint32 (last t2 t3 t0 t1 2%nat) ++ PutUint32 (last t3 t0 t1 t2 3%nat).

(** The value behind a [cipher.Block] made by this package: the expanded
    encryption key. *)
Record aesCipher : Type := { enc : list Z }.

(** [aes.NewCipher(key)] *)
Definition NewCipher (key : list byte) : option aesCipher * option error :=
  let k := length key in
  if decide (k = 16 ∨ k = 24 ∨ k = 32)%nat then
    let nk := (k / 4)%nat in
    let n := (k + 28)%nat in
    (Some {| enc := expandKeyGo nk (n - nk) (map (λ i, Uint32 key (4 * i)) (seq 0 nk)) |},
     None)
  else (None, Some (KeySizeError k)).

(** [c.Encrypt(dst, src)]: the block stored in [dst]. *)
Definition Encrypt (c : aesCipher) (src : list byte) : outcome (list byte) :=
  if decide (length src < BlockSize)%nat then Panics InputNotFullBlock
  else Returns (encryptBlockGo (enc c) src).

End aes.

(** ** Slices and the store of byte buffers *)

Abbreviation heap := (list (list byte)).
Abbreviation slice := (option nat).

(** The contents of a slice; the nil slice is empty. *)
Definition contents (h : heap) (s : slice) : list byte :=
  match s with
  | None => []
  | Some l => default [] (h !! l)
  end.

Definition load (s : slice) : M heap (list byte) := λ h, (Returns (contents h s), h).

(** Overwrite the buffer a slice refers to. *)
Definition store (s : slice) (data : list byte) : M heap unit :=
  λ h, (Returns tt, match s with None => h | Some l => <[l := data]> h end).

(** [make([]byte, n)]: a new zeroed buffer. *)
Definition make (n : nat) : M heap slice :=
  λ h, (Returns (Some (length h)), h ++ [replicate n x00]).

(** ** crypto/cipher: the [Block] interface and counter mode (ctr.go) *)

Module cipher.

Record Block : Type := {
  BlockSize : nat;
  Encrypt : list byte → outcome (list byte)
}.

(** The [cipher.Block] that [aes.NewCipher] hands out; nil on error. *)
Definition ofAES (c : option aes.aesCipher) : option Block :=
  (λ c, {| BlockSize := aes.BlockSize; Encrypt := aes.Encrypt c |}) <$> c.

Record ctr : Type := { b : Block; counter : list byte }.

(** [cipher.NewCTR(block, iv)] *)
Definition NewCTR (block : option Block) (iv : list byte) : outcome ctr :=
  match block with
  | None => Panics NilDereference
  | Some blk =>
      if decide (length iv ≠ BlockSize blk) then Panics IVLengthMismatch
      else Returns {| b := blk; counter := iv |}
  end.

(** The counter update of [refill], on the counter read from its last
    byte: add one and carry while the byte wraps to zero. *)
Fixpoint increment_rev (c : list byte) : list byte :=
  match c with
  | [] => []
  | x :: c' =>
      let x' := Z_byte (byte_Z x + 1) in
      if decide (x' ≠ x00) then x' :: c' else x' :: increment_rev c'
  end.

Definition increment (c : list byte) : list byte :=
  rev (increment_rev (rev c)).

(** [n] blocks of key stream: the encryptions of successive counters. *)
Fixpoint keyStream (blk : Block) (c : list byte) (n : nat) : outcome (list byte) :=
  match n with
  | O => Returns []
  | S n' =>
      and_then (Encrypt blk c) (λ out,
      and_then (keyStream blk (increment c) n') (λ rest,
      Returns (out ++ rest)))
  end.

(** [subtle.XORBytes(dst, x, y)]: the bytes stored at the front of [dst],
    as many as the shorter of [x] and [y]. *)
Definition XORBytes (x y : list byte) : list byte :=
  zip_with (λ a k, Z_byte (Z.lxor (byte_Z a) (byte_Z k))) x y.

(** [x.XORKeyStream(dst, src)] on a stream that has produced nothing yet.
    The stream is not used again, so what is left of its buffer is not
    kept. *)
Definition XORKeyStream (x : ctr) (dst src : slice) : M heap unit :=
  do d <- load dst;
  do s <- load src;
  if decide (length d < length s) then raise OutputSmallerThanInput
  else
    let bs := BlockSize (b x) in
    do ks <- lift (keyStream (b x) (counter x) ((length s + bs - 1) / bs));
    store dst (XORBytes s ks ++ drop (length s) d).

End cipher.

(** ** crypto/sha256 (sha256.go, sha256block.go) *)

Module sha256.

Import binary.
Local Open Scope Z_scope.

Definition Size : nat := 32.
Definition chunk : nat := 64.

Definition is_prime (n : nat) : bool :=
  forallb (λ d, negb (n `mod` d =? 0)%nat) (seq 2 (n - 2)).

Definition primes64 : list Z :=
  Eval vm_compute in map Z.of_nat (take 64 (filter is_prime (seq 2 400))).

(** The integer cube root, one bit at a time from bit [k - 1] down. *)
Fixpoint cbrt_bits (k : nat) (r n : Z) : Z :=
  match k with
  | O => r
  | S k' =>
      let r' := r + 2 ^ Z.of_nat k' in
      cbrt_bits k' (if decide (r' * r' * r' ≤ n) then r' else r) n
  end.

(** The initial hash value: the first 32 bits of the fractional parts of
    the square roots of the first 8 primes. *)
Definition init : list Z :=
  Eval vm_compute in map (λ p, Z.sqrt (p * 2 ^ 64) `mod` 2 ^ 32) (take 8 primes64).

(** The round constants: the first 32 bits of the fractional parts of the
    cube roots of the first 64 primes. *)
Definition _K : list Z :=
  Eval vm_compute in map (λ p, cbrt_bits 40 0 (p * 2 ^ 96) `mod` 2 ^ 32) primes64.

(** [bits.RotateLeft32(v, -k)] *)
Definition rotr (v : Z) (k : Z) : Z :=
  Z.lor (v ≫ k) ((v ≪ (32 - k)) `mod` 2 ^ 32).

Definition add32 (x y : Z) : Z := (x + y) `mod` 2 ^ 32.

(** The message schedule: [w] holds the words so far, [count] are added. *)
Fixpoint schedule (count : nat) (w : list Z) : list Z :=
  match count with
  | O => w
  | S count' =>
      let i := length w in
      let v1 := nth (i - 2) w 0 in
      let t1 := Z.lxor (Z.lxor (rotr v1 17) (rotr v1 19)) (v1 ≫ 10) in
      let v2 := nth (i - 15) w 0 in
      let t2 := Z.lxor (Z.lxor (rotr v2 7) (rotr v2 18)) (v2 ≫ 3) in
      schedule count'
        (w ++ [add32 (add32 (add32 t1 (nth (i - 7) w 0)) t2) (nth (i - 16) w 0)])
  end.

Record state : Type := State { a : Z; b : Z; c : Z; d : Z; e : Z; f : Z; g : Z; h : Z }.

Definition step (w : list Z) (s : state) (i : nat) : state :=
  let 'State a b c d e f g h := s in
  let t1 := add32 (add32 (add32 (add32 h
              (Z.lxor (Z.lxor (rotr e 6) (rotr e 11)) (rotr e 25)))
              (Z.lxor (Z.land e f) (Z.land (Z.lxor e 0xFFFFFFFF) g)))
              (nth i _K 0)) (nth i w 0) in
  let t2 := add32 (Z.lxor (Z.lxor (rotr a 2) (rotr a 13)) (rotr a 22))
                  (Z.lxor (Z.lxor (Z.land a b) (Z.land a c)) (Z.land b c)) in
  State (add32 t1 t2) a b c (add32 d t1) e f g.

(** [blockGeneric]: consume [n] chunks of [p]. *)
Fixpoint blockGeneric (n : nat) (dig : state) (p : list byte) : state :=
  match n with
  | O => dig
  | S n' =>
      let w := schedule 48 (map (λ i, Uint32 p (4 * i)) (seq 0 16)) in
      let s := foldl (step w) dig (seq 0 64) in
      blockGeneric n'
        (State (add32 (a dig) (a s)) (add32 (b dig) (b s)) (add32 (c dig) (c s))
               (add32 (d dig) (d s)) (add32 (e dig) (e s)) (add32 (f dig) (f s))
               (add32 (g dig) (g s)) (add32 (h dig) (h s)))
        (drop chunk p)
  end.

(** The padding written by [checkSum]: 0x80, zeros up to 56 modulo 64,
    and the length in bits as a 64-bit word. *)
Definition padding (len : nat) : list byte :=
  let r := (len `mod` 64)%nat in
  let t := if decide (r < 56)%nat then (56 - r)%nat else (64 + 56 - r)%nat in
  take t (x80 :: replicate 64 x00) ++ PutUint64 ((Z.of_nat len ≪ 3) `mod` 2 ^ 64).

(** [sha256.Sum256(data)] *)
Definition Sum256 (data : list byte) : array Size :=
  let p := data ++ padding (length data) in
  let i (k : nat) := nth k init 0 in
  let s := blockGeneric (length p / chunk)
             (State (i 0) (i 1) (i 2) (i 3) (i 4) (i 5) (i 6) (i 7))%nat p in
  fill Size (PutUint32 (a s) ++ PutUint32 (b s) ++ PutUint32 (c s) ++ PutUint32 (d s) ++
             PutUint32 (e s) ++ PutUint32 (f s) ++ PutUint32 (g s) ++ PutUint32 (h s)).

End sha256.

(** ** crypto/rand *)

Module rand.

(** The system's random source: the bytes it has yet to deliver. *)
Abbreviation Reader := (list byte).

(** [rand.Read(b)] for a [b] of [n] bytes: the bytes stored in [b] and the
    error. It fills [b] entirely or fails. *)
Definition Read (n : nat) : M Reader (list byte * option error) :=
  λ r, if decide (n ≤ length r)
       then (Returns (take n r, None), drop n r)
       else (Returns ([], Some EntropyError), r).

End rand.

(** ** Package attachment *)

Module JSONWebKey.
Record t : Type := mk {
  Key : string;
  Algorithm : string;
  Extractable : bool;
  KeyType : string;
  KeyOps : list string
}.
End JSONWebKey.

Module attachment.

Import base64.

Definition keyLength : nat := 32.
Definition hashLength : nat := 32.
Definition ivLength : nat := 16.

Definition keyBase64Length : nat := EncodedLen keyLength.
Definition hashBase64Length : nat := EncodedLen hashLength.
Definition ivBase64Length : nat := EncodedLen ivLength.

Record EncryptedFileHashes : Type := { SHA256 : string }.

Record decodedKeys : Type := {
  key : array keyLength;
  iv : array ivLength
}.

Record EncryptedFile : Type := {
  Key : JSONWebKey.t;
  InitVector : string;
  Hashes : EncryptedFileHashes;
  Version : string;
  decoded : option decodedKeys   (* a pointer: [None] is nil *)
}.

(** The state a method runs in: the object its receiver [ef] points to and
    the byte buffers. *)
Record world : Type := { obj : EncryptedFile; mem : heap }.

Definition on_mem {A} (m : M heap A) : M world A :=
  λ w, let '(r, h) := m (mem w) in (r, {| obj := obj w; mem := h |}).

(** Read the receiver. *)
Definition self : M world EncryptedFile := λ w, (Returns (obj w), w).

Definition with_decoded (ef : EncryptedFile) (d : option decodedKeys) : EncryptedFile :=
  {| Key := Key ef; InitVector := InitVector ef; Hashes := Hashes ef;
     Version := Version ef; decoded := d |}.

Definition with_SHA256 (ef : EncryptedFile) (s : string) : EncryptedFile :=
  {| Key := Key ef; InitVector := InitVector ef; Hashes := {| SHA256 := s |};
     Version := Version ef; decoded := decoded ef |}.

(** [ef.decoded = d] *)
Definition set_decoded (d : option decodedKeys) : M world unit :=
  λ w, (Returns tt, {| obj := with_decoded (obj w) d; mem := mem w |}).

(** [ef.Hashes.SHA256 = s] *)
Definition set_SHA256 (s : string) : M world unit :=
  λ w, (Returns tt, {| obj := with_SHA256 (obj w) s; mem := mem w |}).

(** [*ef.decoded], which panics on the nil pointer. *)
Definition deref_decoded : M world decodedKeys :=
  do ef <- self;
  match decoded ef with
  | None => raise NilDereference
  | Some d => ret d
  end.

Definition genA256CTR : M rand.Reader (array keyLength * array ivLength) :=
  do '(k, err) <- rand.Read keyLength;
  match err with
  | Some e => raise (PanicError e)
  | None =>
      do '(v, err) <- rand.Read 8;
      match err with
      | Some e => raise (PanicError e)
      | None => ret (fill keyLength k, fill ivLength v)
      end
  end.

Definition NewEncryptedFile : M rand.Reader EncryptedFile :=
  do '(key, iv) <- genA256CTR;
  ret {| Key := {| JSONWebKey.Key := EncodeToString RawURLEncoding (elems key);
                   JSONWebKey.Algorithm := "A256CTR";
                   JSONWebKey.Extractable := true;
                   JSONWebKey.KeyType := "oct";
                   JSONWebKey.KeyOps := ["encrypt"; "decrypt"] |};
         InitVector := EncodeToString RawStdEncoding (elems iv);
         Hashes := {| SHA256 := "" |};
         Version := "v2";
         decoded := Some {| key := key; iv := iv |} |}.

(** [enc.Decode(a[:], []byte(s))] for an array [a] that holds zeros: the
    array afterwards and the error. *)
Definition DecodeArray {n : nat} (enc : Encoding) (a : array n) (s : string)
    : outcome (array n * option error) :=
  and_then (Decode enc (elems a) (String.list_byte_of_string s))
           (λ '(dst, _, err), Returns (fill n dst, err)).

Definition decodeKeys : M world (option error) :=
  do ef <- self;
  if decide (decoded ef ≠ None) then ret None
  else if decide (String.length (JSONWebKey.Key (Key ef)) ≠ keyBase64Length)
  then ret (Some InvalidKey)
  else if decide (String.length (InitVector ef) ≠ ivBase64Length)
  then ret (Some InvalidInitVector)
  else
    set_decoded (Some {| key := fill keyLength []; iv := fill ivLength [] |});;
    do d <- deref_decoded;
    do '(k, err) <- lift (DecodeArray RawURLEncoding (key d) (JSONWebKey.Key (Key ef)));
    set_decoded (Some {| key := k; iv := iv d |});;
    match err with
    | Some _ => ret (Some InvalidKey)
    | None =>
        do d <- deref_decoded;
        do '(v, err) <- lift (DecodeArray RawStdEncoding (iv d) (InitVector ef));
        set_decoded (Some {| key := key d; iv := v |});;
        match err with
        | Some _ => ret (Some InvalidInitVector)
        | None => ret None
        end
    end.

Definition xorA256CTR (source : slice) (key : array keyLength) (iv : array ivLength)
    : M heap slice :=
  let '(block, _) := aes.NewCipher (elems key) in
  do src <- load source;
  do result <- make (length src);
  do stream <- lift (cipher.NewCTR (cipher.ofAES block) (elems iv));
  cipher.XORKeyStream stream result source;;
  ret result.

Definition Encrypt (plaintext : slice) : M world slice :=
  decodeKeys;;
  do d <- deref_decoded;
  do ciphertext <- on_mem (xorA256CTR plaintext (key d) (iv d));
  do c <- on_mem (load ciphertext);
  let hash := sha256.Sum256 c in
  set_SHA256 (EncodeToString RawStdEncoding (elems hash));;
  ret ciphertext.

Definition checkHash (ciphertext : slice) : M world bool :=
  do ef <- self;
  if decide (String.length (SHA256 (Hashes ef)) ≠ hashBase64Length) then ret false
  else
    do '(hash, err) <- lift (DecodeArray RawStdEncoding (fill hashLength [])
                               (SHA256 (Hashes ef)));
    match err with
    | Some _ => ret false
    | None =>
        do c <- on_mem (load ciphertext);
        ret (bool_decide (hash = sha256.Sum256 c))
    end.

Definition Decrypt (ciphertext : slice) : M world (slice * option error) :=
  do ef <- self;
  if decide (Version ef ≠ "v2") then ret (None, Some UnsupportedVersion)
  else if decide (JSONWebKey.Algorithm (Key ef) ≠ "A256CTR")
  then ret (None, Some UnsupportedAlgorithm)
  else
    do ok <- checkHash ciphertext;
    if negb ok then ret (None, Some HashMismatch)
    else
      do err <- decodeKeys;
      match err with
      | Some e => ret (None, Some e)
      | None =>
          do d <- deref_decoded;
          do plaintext <- on_mem (xorA256CTR ciphertext (key d) (iv d));
          ret (plaintext, None)
      end.

End attachment.

(** ** Descriptions used in the statements *)

Import attachment.

(** An alphabet of 64 distinct characters: decoding a character of the
    alphabet gives back its position. *)
Definition valid (enc : base64.Encoding) : Prop :=
  ∀ v, (0 ≤ v < 64)%Z → base64.decodeMap enc (base64.encode enc v) = v.

(** The bytes [xorA256CTR] stores in its result for a source that holds
    [src]: a run of it on a store with that one buffer. *)
Definition A256CTR (key : array keyLength) (iv : array ivLength)
    (src : list byte) : list byte :=
  match xorA256CTR (Some 0) key iv [src] with
  | (Returns result, h) => contents h result
  | (Panics _, _) => []
  end.

Definition key_field (ef : EncryptedFile) : list byte :=
  String.list_byte_of_string (JSONWebKey.Key (Key ef)).
Definition iv_field (ef : EncryptedFile) : list byte :=
  String.list_byte_of_string (InitVector ef).
Definition digest_field (ef : EncryptedFile) : list byte :=
  String.list_byte_of_string (SHA256 (Hashes ef)).

(** What [decodeKeys] does to a descriptor whose cache is unset: the
    error it returns and the cache it leaves. *)
Definition decode_fields (ef : EncryptedFile) : option error * option decodedKeys :=
  if decide (String.length (JSONWebKey.Key (Key ef)) ≠ keyBase64Length)
  then (Some InvalidKey, None)
  else if decide (String.length (InitVector ef) ≠ ivBase64Length)
  then (Some InvalidInitVector, None)
  else
    let k := base64.decodeQuanta base64.RawURLEncoding (key_field ef) 0 [] [] in
    match k.2 with
    | Some _ =>
        (Some InvalidKey, Some {| key := fill keyLength k.1; iv := fill ivLength [] |})
    | None =>
        let v := base64.decodeQuanta base64.RawStdEncoding (iv_field ef) 0 [] [] in
        (match v.2 with Some _ => Some InvalidInitVector | None => None end,
         Some {| key := fill keyLength k.1; iv := fill ivLength v.1 |})
    end.

(** What [checkHash] answers for a descriptor and the bytes of the
    ciphertext. *)
Definition digest_ok (ef : EncryptedFile) (data : list byte) : bool :=
  if decide (String.length (SHA256 (Hashes ef)) ≠ hashBase64Length) then false
  else
    let hash := base64.decodeQuanta base64.RawStdEncoding (digest_field ef) 0 [] [] in
    match hash.2 with
    | Some _ => false
    | None => bool_decide (fill hashLength hash.1 = sha256.Sum256 data)
    end.

(** The world after [xorA256CTR] has run on a slice of it. *)
Definition after_xor (w : world) (d : decodedKeys) (source : slice) : world :=
  {| obj := obj w;
     mem := mem w ++ [A256CTR (key d) (iv d) (contents (mem w) source)] |}.

(** Sample inputs. *)
Definition sample_random : rand.Reader :=
  map (λ i, Z_byte (Z.of_nat (7 * i + 3))) (seq 0 48).

Definition sample_message : list byte :=
  String.list_byte_of_string "hello world".

Definition sample_keys : decodedKeys :=
  {| key := fill keyLength (take 32 sample_random);
     iv := fill ivLength (take 8 (drop 32 sample_random)) |}.

(** The descriptor [NewEncryptedFile] returns for [sample_random]. *)
Definition sample_file : EncryptedFile :=
  {| Key := {| JSONWebKey.Key := "AwoRGB8mLTQ7QklQV15lbHN6gYiPlp2kq7K5wMfO1dw";
               JSONWebKey.Algorithm := "A256CTR";
               JSONWebKey.Extractable := true;
               JSONWebKey.KeyType := "oct";
               JSONWebKey.KeyOps := ["encrypt"; "decrypt"] |};
     InitVector := "4+rx+P8GDRQAAAAAAAAAAA";
     Hashes := {| SHA256 := "" |};
     Version := "v2";
     decoded := Some sample_keys |}.

(** A descriptor as it arrives from a sender, with no cache: the given
    key and IV fields and the digest of the bytes "hello world". *)
Definition received (k v : string) : EncryptedFile :=
  {| Key := {| JSONWebKey.Key := k;
               JSONWebKey.Algorithm := "A256CTR";
               JSONWebKey.Extractable := true;
               JSONWebKey.KeyType := "oct";
               JSONWebKey.KeyOps := ["encrypt"; "decrypt"] |};
     InitVector := v;
     Hashes := {| SHA256 := "uU0nuZNNPgilLlLX2n2r+sSE7+N6U4DukIj3rOLvzek" |};
     Version := "v2";
     decoded := None |}.

(** The key of 32 bytes 0xFF in the standard alphabet instead of the
    URL-safe one, and the IV of 8 bytes 0xFF and 8 zeros in the URL-safe
    alphabet instead of the standard one. *)
Definition std_alphabet_key : string := "//////////////////////////////////////////8".
Definition url_alphabet_iv : string := "__________8AAAAAAAAAAA".

(** The failure [Decrypt] reports, check by check. *)
Definition first_failure (ef : EncryptedFile) (data : list byte) : option error :=
  if decide (Version ef ≠ "v2") then Some UnsupportedVersion
  else if decide (JSONWebKey.Algorithm (Key ef) ≠ "A256CTR") then Some UnsupportedAlgorithm
  else if negb (digest_ok ef data) then Some HashMismatch
  else match decoded ef with
       | Some _ => None
       | None =>
           if decide (String.length (JSONWebKey.Key (Key ef)) ≠ keyBase64Length)
           then Some InvalidKey
           else if decide (String.length (InitVector ef) ≠ ivBase64Length)
           then Some InvalidInitVector
           else if decide ((base64.decodeQuanta base64.RawURLEncoding
                              (key_field ef) 0 [] []).2 ≠ None)
           then Some InvalidKey
           else if decide ((base64.decodeQuanta base64.RawStdEncoding
                              (iv_field ef) 0 [] []).2 ≠ None)
           then Some InvalidInitVector
           else None
       end.

(** A key or IV field is invalid when it has the wrong length or is not
    valid base64. *)
Definition field_invalid (enc : base64.Encoding) (len : nat) (s : string) : bool :=
  bool_decide (String.length s ≠ len) ||
  bool_decide ((base64.decodeQuanta enc (String.list_byte_of_string s) 0 [] []).2 ≠ None).

(** The failure that the order "version, algorithm, digest, key, IV, the
    first failure wins" asks for. This definition follows the words of
    the specification, not the code; it is compared with [Decrypt]. *)
Definition claimed_failure (ef : EncryptedFile) (data : list byte) : option error :=
  if decide (Version ef ≠ "v2") then Some UnsupportedVersion
  else if decide (JSONWebKey.Algorithm (Key ef) ≠ "A256CTR") then Some UnsupportedAlgorithm
  else if negb (digest_ok ef data) then Some HashMismatch
  else if field_invalid base64.RawURLEncoding keyBase64Length (JSONWebKey.Key (Key ef))
  then Some InvalidKey
  else if field_invalid base64.RawStdEncoding ivBase64Length (InitVector ef)
  then Some InvalidInitVector
  else None.

(** Flip bit [i] of a byte sequence, counting from the low bit of the
    first byte. *)
Definition flip_bit (i : nat) (data : list byte) : list byte :=
  match data !! (i / 8) with
  | Some x => <[i / 8 := Z_byte (Z.lxor (byte_Z x) (1 ≪ Z.of_nat (i `mod` 8)))]> data
  | None => data
  end.

(** Tamper detection: on a fresh descriptor, after [Encrypt], flipping
    any one bit of the ciphertext buffer makes [Decrypt] fail with
    HashMismatch. *)
Definition tamper_detection : Prop :=
  ∀ (r r' : rand.Reader) (ef : EncryptedFile) (h : heap) (plaintext : slice) (i : nat),
    NewEncryptedFile r = (Returns ef, r') →
    let w1 := (Encrypt plaintext {| obj := ef; mem := h |}).2 in
    let c := contents (mem w1) (Some (length h)) in
    i < 8 * length c →
    (Decrypt (Some (length h))
       {| obj := obj w1; mem := <[length h := flip_bit i c]> (mem w1) |}).1
    = Returns (None, Some HashMismatch).

(** SHA-256 tells every byte sequence from those one bit away. *)
Definition one_bit_apart_differ : Prop :=
  ∀ (c : list byte) (i : nat),
    i < 8 * length c → sha256.Sum256 c ≠ sha256.Sum256 (flip_bit i c).

(** ** Descriptions used in the further properties *)

(** A counter block read as a number, first byte highest, and the [n]
    bytes of a number in that order; the same with the last byte first
    ([le_bytes]), the order in which the counter is incremented. *)
Fixpoint le_bytes (n : nat) (z : Z) : list byte :=
  match n with
  | O => []
  | S n' => Z_byte z :: le_bytes n' (z ≫ 8)%Z
  end.

Fixpoint le_value (c : list byte) : Z :=
  match c with
  | [] => 0%Z
  | x :: c' => (byte_Z x + 256 * le_value c')%Z
  end.

Definition be_bytes (n : nat) (z : Z) : list byte := rev (le_bytes n z).
Definition be_value (c : list byte) : Z := le_value (rev c).

(** The AES-256 encryption of one block under [key], as [xorA256CTR]
    sets it up. *)
Definition block_of (key : array keyLength) (c : list byte) : list byte :=
  match aes.NewCipher (elems key) with
  | (Some blk, _) => aes.encryptBlockGo (aes.enc blk) c
  | (None, _) => []
  end.

(** [n] blocks of key stream where block [i] encrypts [counter i]. *)
Definition key_stream (key : array keyLength) (counter : nat → list byte) (n : nat)
    : list byte :=
  flat_map (λ i, block_of key (counter i)) (seq 0 n).

(** The number of blocks [XORKeyStream] asks for. *)
Definition blocks (len : nat) : nat := (len + 16 - 1) / 16.

(** The descriptor as it travels to a receiver: every field but the
    cache, which is not serialised. *)
Definition transmitted (ef : EncryptedFile) : EncryptedFile := with_decoded ef None.

(** The digest [Encrypt] stores for an empty ciphertext. *)
Definition empty_digest : string := "47DEQpj8HBSa+/TImW+5JCeuQeRkm5NMpJWZG3hSuFU".

(** The line feed character. *)
Definition line_feed : Ascii.ascii := Ascii.ascii_of_byte "010"%byte.

(** * Properties *)

(** ** Bytes and arrays *)

(** Closes [¬ x ≠ x]. *)
Ltac same := let H := fresh in intros H; apply H; reflexivity.

Lemma byte_Z_range (b : byte) : (0 ≤ byte_Z b < 256)%Z.
Proof. unfold byte_Z. pose proof (Byte.to_N_bounded b). lia. Qed.

Lemma Z_byte_byte_Z (b : byte) : Z_byte (byte_Z b) = b.
Proof.
  unfold Z_byte. rewrite Z.mod_small by apply byte_Z_range.
  unfold byte_Z. rewrite N2Z.id, Byte.of_to_N. reflexivity.
Qed.

Lemma byte_Z_Z_byte (z : Z) : byte_Z (Z_byte z) = (z `mod` 256)%Z.
Proof.
  unfold Z_byte, byte_Z.
  assert (H : (0 ≤ z `mod` 256 < 256)%Z) by (apply Z.mod_pos_bound; lia).
  destruct (Byte.of_N (Z.to_N (z `mod` 256))) as [b|] eqn:E; simpl.
  - apply Byte.to_of_N in E. rewrite E. lia.
  - apply Byte.of_N_None_iff in E. lia.
Qed.

(** A bitwise or of a multiple of [2 ^ k] and a value below [2 ^ k] is
    their sum. *)
Lemma lor_add (x lo k : Z) :
  (0 ≤ k)%Z → (x `mod` 2 ^ k = 0)%Z → (0 ≤ lo < 2 ^ k)%Z → Z.lor x lo = (x + lo)%Z.
Proof.
  intros Hk Hx Hlo. symmetry. apply Z.add_nocarry_lor.
  apply Z.bits_inj'. intros n Hn. rewrite Z.land_spec, Z.bits_0.
  destruct (Z.ltb_spec n k) as [Hlt | Hge].
  - rewrite (Z.div_mod x (2 ^ k)) by lia. rewrite Hx, Z.add_0_r.
    rewrite Z.mul_comm, Z.mul_pow2_bits_low by lia. reflexivity.
  - destruct (decide (lo = 0)%Z) as [-> | Hne].
    + rewrite Z.bits_0. apply andb_false_r.
    + rewrite (Z.bits_above_log2 lo n), andb_false_r; [reflexivity | lia |].
      apply Z.lt_le_trans with k; [| lia]. apply Z.log2_lt_pow2; lia.
Qed.

Lemma lxor_byte_range (x y : Z) :
  (0 ≤ x < 256)%Z → (0 ≤ y < 256)%Z → (0 ≤ Z.lxor x y < 256)%Z.
Proof.
  intros Hx Hy.
  assert (0 ≤ Z.lxor x y)%Z by (apply Z.lxor_nonneg; lia).
  split; [assumption |].
  destruct (decide (Z.lxor x y = 0)%Z) as [-> | Hne]; [lia |].
  change 256%Z with (2 ^ 8)%Z. apply Z.log2_lt_pow2; [lia |].
  pose proof (Z.log2_lxor x y ltac:(lia) ltac:(lia)).
  assert (Z.log2 x < 8)%Z.
  { destruct (decide (x = 0)%Z) as [-> | ?]; [reflexivity | apply Z.log2_lt_pow2; lia]. }
  assert (Z.log2 y < 8)%Z.
  { destruct (decide (y = 0)%Z) as [-> | ?]; [reflexivity | apply Z.log2_lt_pow2; lia]. }
  lia.
Qed.

Lemma fill_exact (n : nat) (l : list byte) : length l = n → elems (fill n l) = l.
Proof. intros H. simpl. rewrite take_app_length'; [reflexivity | symmetry; exact H]. Qed.

Lemma fill_elems {n : nat} (x : array n) : fill n (elems x) = x.
Proof. apply array_eq, fill_exact, elems_length. Qed.

Lemma string_of_list_byte_length (l : list byte) :
  String.length (String.string_of_list_byte l) = length l.
Proof. induction l as [| b l IH]; simpl; [reflexivity | f_equal; exact IH]. Qed.

Lemma Z_byte_eq (z : Z) (b : byte) : (z `mod` 256 = byte_Z b)%Z → Z_byte z = b.
Proof.
  intros H. unfold Z_byte. rewrite H. unfold byte_Z.
  rewrite N2Z.id, Byte.of_to_N. reflexivity.
Qed.

(** ** encoding/base64 *)

Section base64_facts.

Import base64.
Local Open Scope Z_scope.

Lemma valid_by_enumeration (enc : Encoding) :
  forallb (λ n, bool_decide (decodeMap enc (encode enc (Z.of_nat n)) = Z.of_nat n))
          (seq 0 64) = true →
  valid enc.
Proof.
  intros H v Hv. rewrite forallb_forall in H.
  specialize (H (Z.to_nat v)). rewrite Z2Nat.id in H by lia.
  assert (Hin : In (Z.to_nat v) (seq 0 64)) by (apply in_seq; lia).
  apply H in Hin. apply bool_decide_eq_true in Hin. exact Hin.
Qed.

Lemma RawStdEncoding_valid : valid RawStdEncoding.
Proof. apply valid_by_enumeration. vm_compute. reflexivity. Qed.

Lemma RawURLEncoding_valid : valid RawURLEncoding.
Proof. apply valid_by_enumeration. vm_compute. reflexivity. Qed.

Lemma sextet_range (val k : Z) : 0 ≤ k → 0 ≤ Z.land (val ≫ k) 0x3F < 64.
Proof.
  intros Hk. change 0x3F with (Z.ones 6). rewrite Z.land_ones by lia.
  apply Z.mod_pos_bound. lia.
Qed.

Lemma sextet_arith (val k : Z) :
  0 ≤ k → Z.land (val ≫ k) 0x3F = (val / 2 ^ k) `mod` 64.
Proof.
  intros Hk. change 0x3F with (Z.ones 6).
  rewrite Z.land_ones, Z.shiftr_div_pow2 by lia. reflexivity.
Qed.

Lemma sextet0_arith (val : Z) : Z.land val 0x3F = val `mod` 64.
Proof. change 0x3F with (Z.ones 6). rewrite Z.land_ones by lia. reflexivity. Qed.

(** The value assembled from a quantum of three bytes. *)
Lemma val3_arith (x y z : Z) :
  0 ≤ x < 256 → 0 ≤ y < 256 → 0 ≤ z < 256 →
  Z.lor (Z.lor (x ≪ 16) (y ≪ 8)) z = x * 65536 + y * 256 + z.
Proof.
  intros Hx Hy Hz. rewrite !Z.shiftl_mul_pow2 by lia.
  change (2 ^ 16) with 65536. change (2 ^ 8) with 256.
  rewrite (lor_add (x * 65536) (y * 256) 16); [| lia | | ].
  - rewrite (lor_add _ z 8); [reflexivity | lia | | ];
      change (2 ^ 8) with 256; Z.div_mod_to_equations; lia.
  - change (2 ^ 16) with 65536. Z.div_mod_to_equations. lia.
  - change (2 ^ 16) with 65536. lia.
Qed.

(** The value reassembled from four six-bit groups. *)
Lemma val4_arith (s0 s1 s2 s3 : Z) :
  0 ≤ s0 < 64 → 0 ≤ s1 < 64 → 0 ≤ s2 < 64 → 0 ≤ s3 < 64 →
  Z.lor (Z.lor (Z.lor (s0 ≪ 18) (s1 ≪ 12)) (s2 ≪ 6)) s3
  = s0 * 262144 + s1 * 4096 + s2 * 64 + s3.
Proof.
  intros H0 H1 H2 H3. rewrite !Z.shiftl_mul_pow2 by lia.
  change (2 ^ 18) with 262144. change (2 ^ 12) with 4096. change (2 ^ 6) with 64.
  rewrite (lor_add (s0 * 262144) (s1 * 4096) 18); [| lia | | ].
  - rewrite (lor_add _ (s2 * 64) 12); [| lia | | ].
    + rewrite (lor_add _ s3 6); [reflexivity | lia | | ];
        change (2 ^ 6) with 64; Z.div_mod_to_equations; lia.
    + change (2 ^ 12) with 4096. Z.div_mod_to_equations. lia.
    + change (2 ^ 12) with 4096. lia.
  - change (2 ^ 18) with 262144. Z.div_mod_to_equations. lia.
  - change (2 ^ 18) with 262144. lia.
Qed.

(** Splitting a 24-bit value into six-bit groups and reassembling them
    gives the bytes back. *)
Lemma quantum_three (x y z : byte) :
  let val := Z.lor (Z.lor (byte_Z x ≪ 16) (byte_Z y ≪ 8)) (byte_Z z) in
  quantumBytes [Z.land (val ≫ 18) 0x3F; Z.land (val ≫ 12) 0x3F;
                Z.land (val ≫ 6) 0x3F; Z.land val 0x3F] = [x; y; z].
Proof.
  intros val. pose proof (byte_Z_range x). pose proof (byte_Z_range y).
  pose proof (byte_Z_range z).
  unfold quantumBytes. cbn [length nth Nat.sub take].
  rewrite val4_arith by (apply sextet_range || (rewrite sextet0_arith; apply Z.mod_pos_bound); lia).
  rewrite !sextet_arith, sextet0_arith by lia.
  unfold val. rewrite val3_arith by lia.
  rewrite !Z.shiftr_div_pow2 by lia.
  change (2 ^ 18) with 262144. change (2 ^ 12) with 4096. change (2 ^ 6) with 64.
  change (2 ^ 16) with 65536. change (2 ^ 8) with 256.
  f_equal; [| f_equal; [| f_equal]]; apply Z_byte_eq; Z.div_mod_to_equations; lia.
Qed.

Lemma quantum_two (x y : byte) :
  let val := Z.lor (byte_Z x ≪ 16) (byte_Z y ≪ 8) in
  quantumBytes [Z.land (val ≫ 18) 0x3F; Z.land (val ≫ 12) 0x3F;
                Z.land (val ≫ 6) 0x3F] = [x; y].
Proof.
  intros val. pose proof (byte_Z_range x). pose proof (byte_Z_range y).
  unfold quantumBytes. cbn [length nth Nat.sub take].
  rewrite val4_arith by (apply sextet_range || lia; lia).
  rewrite !sextet_arith by lia.
  assert (Hval : val = byte_Z x * 65536 + byte_Z y * 256 + 0).
  { unfold val. rewrite <- (val3_arith _ _ 0) by lia. rewrite Z.lor_0_r. reflexivity. }
  rewrite Hval. rewrite !Z.shiftr_div_pow2 by lia.
  change (2 ^ 18) with 262144. change (2 ^ 12) with 4096. change (2 ^ 6) with 64.
  change (2 ^ 16) with 65536. change (2 ^ 8) with 256.
  f_equal; [| f_equal]; apply Z_byte_eq; Z.div_mod_to_equations; lia.
Qed.

Lemma quantum_one (x : byte) :
  let val := byte_Z x ≪ 16 in
  quantumBytes [Z.land (val ≫ 18) 0x3F; Z.land (val ≫ 12) 0x3F] = [x].
Proof.
  intros val. pose proof (byte_Z_range x).
  unfold quantumBytes. cbn [length nth Nat.sub take].
  rewrite val4_arith by (apply sextet_range || lia; lia).
  rewrite !sextet_arith by lia.
  unfold val. rewrite Z.shiftl_mul_pow2, !Z.shiftr_div_pow2 by lia.
  change (2 ^ 18) with 262144. change (2 ^ 12) with 4096.
  change (2 ^ 16) with 65536.
  f_equal. apply Z_byte_eq. Z.div_mod_to_equations. lia.
Qed.

Lemma list_ind3 {A : Type} (P : list A → Prop) :
  P [] → (∀ x, P [x]) → (∀ x y, P [x; y]) →
  (∀ x y z l, P l → P (x :: y :: z :: l)) →
  ∀ l, P l.
Proof.
  intros H0 H1 H2 H3.
  fix IH 1. intros [| x [| y [| z l]]]; [exact H0 | apply H1 | apply H2 |].
  apply H3, IH.
Qed.

Lemma decodeQuanta_step (enc : Encoding) (v : Z) src si dbuf out :
  valid enc → 0 ≤ v < 64 →
  decodeQuanta enc (encode enc v :: src) si dbuf out =
    if decide (length (dbuf ++ [v]) = 4%nat)
    then decodeQuanta enc src (S si) [] (out ++ quantumBytes (dbuf ++ [v]))
    else decodeQuanta enc src (S si) (dbuf ++ [v]) out.
Proof.
  intros Hv Hr. cbn [decodeQuanta]. rewrite (Hv v Hr).
  destruct (decide (v ≠ 0xFF)) as [_ | Hn]; [reflexivity | lia].
Qed.

(** Decoding an encoding gives the bytes back, without error. *)
Lemma decodeQuanta_Encode (enc : Encoding) :
  valid enc →
  ∀ bs si out, decodeQuanta enc (Encode enc bs) si [] out = (out ++ bs, None).
Proof.
  intros Hv. induction bs as [| x | x y | x y z l IH] using list_ind3; intros si out.
  - cbn. rewrite app_nil_r. reflexivity.
  - cbn [Encode]. rewrite !decodeQuanta_step by (assumption || (apply sextet_range; lia)).
    cbn [app length decodeQuanta]. rewrite !decide_False by lia.
    rewrite quantum_one. reflexivity.
  - cbn [Encode]. rewrite !decodeQuanta_step by (assumption || (apply sextet_range; lia)).
    cbn [app length decodeQuanta]. rewrite !decide_False by lia.
    rewrite quantum_two. reflexivity.
  - cbn [Encode].
    rewrite !decodeQuanta_step
      by (assumption || (apply sextet_range; lia) ||
          (rewrite sextet0_arith; apply Z.mod_pos_bound; lia)).
    cbn [app length]. rewrite !decide_False by lia. rewrite decide_True by reflexivity.
    rewrite quantum_three, IH, <- app_assoc. reflexivity.
Qed.

Lemma Encode_length (enc : Encoding) (bs : list byte) :
  length (Encode enc bs) = EncodedLen (length bs).
Proof.
  induction bs as [| x | x y | x y z l IH] using list_ind3; [reflexivity ..|].
  cbn [Encode length]. rewrite IH. unfold EncodedLen.
  replace (S (S (S (length l))) * 8 + 5)%nat with (length l * 8 + 5 + 4 * 6)%nat by lia.
  rewrite Nat.div_add by lia. lia.
Qed.

Lemma Decode_Encode (enc : Encoding) (dst bs : list byte) :
  valid enc → (length bs ≤ length dst)%nat →
  Decode enc dst (Encode enc bs) = Returns (bs ++ drop (length bs) dst, length bs, None).
Proof.
  intros Hv Hlen. unfold Decode. rewrite decodeQuanta_Encode by assumption.
  cbn [app]. rewrite decide_True by assumption. reflexivity.
Qed.

Lemma quantumBytes_length (dbuf : list Z) :
  length (quantumBytes dbuf) = ((length dbuf - 1) `min` 3)%nat.
Proof. unfold quantumBytes. rewrite length_take. reflexivity. Qed.

(** Four characters give at most three bytes. *)
Lemma decodeQuanta_length (enc : Encoding) src :
  ∀ si dbuf out,
  (length dbuf < 4)%nat →
  (4 * length (decodeQuanta enc src si dbuf out).1
   ≤ 4 * length out + 3 * (length dbuf + length src))%nat.
Proof.
  induction src as [| c src IH]; intros si dbuf out Hd.
  - cbn [decodeQuanta]. destruct dbuf as [| d0 [| d1 dbuf]]; cbn [fst length]; [lia .. |].
    rewrite length_app, quantumBytes_length. cbn [length] in *. lia.
  - cbn [decodeQuanta]. repeat case_decide; cbn [fst length].
    + etrans; [apply IH; cbn; lia |].
      rewrite !length_app, quantumBytes_length in *. cbn [length] in *. lia.
    + etrans; [apply IH; rewrite length_app in *; cbn [length] in *; lia |].
      rewrite length_app. cbn [length]. lia.
    + etrans; [apply IH; lia |]. lia.
    + lia.
Qed.

Lemma EncodeToString_bytes (enc : Encoding) (bs : list byte) :
  String.list_byte_of_string (EncodeToString enc bs) = Encode enc bs.
Proof. apply String.list_byte_of_string_of_list_byte. Qed.

Lemma EncodeToString_length (enc : Encoding) (bs : list byte) :
  String.length (EncodeToString enc bs) = EncodedLen (length bs).
Proof. unfold EncodeToString. rewrite string_of_list_byte_length. apply Encode_length. Qed.

End base64_facts.

(** ** crypto/aes and crypto/cipher *)

Section cipher_facts.

Import cipher.

Lemma encryptBlockGo_length (xk : list Z) (src : list byte) :
  length (aes.encryptBlockGo xk src) = 16.
Proof.
  unfold aes.encryptBlockGo.
  destruct (aes.rounds _ _ _ _) as [k [[[t0 t1] t2] t3]].
  rewrite !length_app. reflexivity.
Qed.

Lemma aes_Encrypt_full (c : aes.aesCipher) (src : list byte) :
  length src = 16 →
  ∃ out, aes.Encrypt c src = Returns out ∧ length out = 16.
Proof.
  intros H. unfold aes.Encrypt, aes.BlockSize. rewrite decide_False by lia.
  eexists. split; [reflexivity | apply encryptBlockGo_length].
Qed.

Lemma NewCipher_256 (key : list byte) :
  length key = 32 → ∃ c, aes.NewCipher key = (Some c, None).
Proof.
  intros H. unfold aes.NewCipher. rewrite H, decide_True by lia.
  eexists. reflexivity.
Qed.

Lemma increment_rev_length (c : list byte) : length (increment_rev c) = length c.
Proof.
  induction c as [| x c IH]; [reflexivity |].
  cbn [increment_rev]. case_decide; cbn [length]; [reflexivity | rewrite IH; reflexivity].
Qed.

Lemma increment_length (c : list byte) : length (increment c) = length c.
Proof. unfold increment. rewrite length_rev, increment_rev_length, length_rev. reflexivity. Qed.

(** The key stream of an AES block never fails and has sixteen bytes per
    block. *)
Lemma keyStream_aes (c : aes.aesCipher) (n : nat) :
  ∀ ctr0, length ctr0 = 16 →
  ∃ ks, keyStream {| BlockSize := aes.BlockSize; Encrypt := aes.Encrypt c |} ctr0 n
        = Returns ks ∧ length ks = 16 * n.
Proof.
  induction n as [| n IH]; intros ctr0 H.
  - exists []. split; reflexivity.
  - cbn [keyStream Encrypt].
    destruct (aes_Encrypt_full c ctr0 H) as (out & -> & Hout).
    destruct (IH (increment ctr0)) as (ks & Hks & Hlen).
    { rewrite increment_length. exact H. }
    cbn [and_then]. cbn [Encrypt] in Hks. rewrite Hks. cbn [and_then].
    eexists. split; [reflexivity |]. rewrite length_app. lia.
Qed.

Lemma XORBytes_length (x y : list byte) :
  length (XORBytes x y) = length x `min` length y.
Proof. apply length_zip_with. Qed.

Lemma xor_byte_involutive (a k : byte) :
  Z_byte (Z.lxor (byte_Z (Z_byte (Z.lxor (byte_Z a) (byte_Z k)))) (byte_Z k)) = a.
Proof.
  pose proof (byte_Z_range a). pose proof (byte_Z_range k).
  rewrite byte_Z_Z_byte, Z.mod_small by (apply lxor_byte_range; assumption).
  rewrite Z.lxor_assoc, Z.lxor_nilpotent, Z.lxor_0_r. apply Z_byte_byte_Z.
Qed.

(** Adding the same key stream twice gives the input back. *)
Lemma XORBytes_involutive (x : list byte) :
  ∀ ks, length x ≤ length ks → XORBytes (XORBytes x ks) ks = x.
Proof.
  unfold XORBytes. induction x as [| a x IH]; intros [| k ks] H; cbn in *;
    [reflexivity | reflexivity | lia |].
  rewrite xor_byte_involutive, IH by lia. reflexivity.
Qed.

End cipher_facts.

(** ** Package attachment: what each function computes *)

Section attachment_facts.

Lemma contents_make (h : heap) (source : slice) :
  contents (h ++ [replicate (length (contents h source)) x00]) source
  = contents h source.
Proof.
  destruct source as [l |]; [| reflexivity]. cbn [contents].
  destruct (h !! l) as [data |] eqn:E.
  - rewrite (lookup_app_l_Some _ _ _ _ E). reflexivity.
  - apply lookup_ge_None in E. cbn [default length replicate].
    destruct (decide (l = length h)) as [-> | Hne].
    + rewrite list_lookup_middle by reflexivity. reflexivity.
    + rewrite lookup_ge_None_2; [reflexivity |]. rewrite length_app. cbn. lia.
Qed.

Lemma blocks_cover (n : nat) : n ≤ 16 * ((n + 16 - 1) / 16).
Proof.
  pose proof (Nat.div_mod_eq (n + 16 - 1) 16).
  pose proof (Nat.mod_upper_bound (n + 16 - 1) 16). lia.
Qed.

(** [xorA256CTR] never panics: it allocates one buffer, fills it with the
    source xored with a key stream that depends on the key, the IV and
    the length only, and leaves every other buffer alone. *)
Lemma xorA256CTR_explicit (key : array keyLength) (iv : array ivLength) (n : nat) :
  ∃ ks, n ≤ length ks ∧
    ∀ (source : slice) (h : heap),
      length (contents h source) = n →
      xorA256CTR source key iv h
      = (Returns (Some (length h)), h ++ [cipher.XORBytes (contents h source) ks]).
Proof.
  destruct (NewCipher_256 (elems key) (elems_length key)) as [c Hc].
  destruct (keyStream_aes c ((n + 16 - 1) / 16) (elems iv) (elems_length iv))
    as (ks & Hks & Hlen).
  exists ks. split; [rewrite Hlen; apply blocks_cover |].
  intros source h Hn. unfold xorA256CTR. rewrite Hc.
  unfold bind, load, make, lift, ret, cipher.XORKeyStream, cipher.ofAES, cipher.NewCTR.
  cbn [fmap option_fmap option_map cipher.BlockSize].
  rewrite decide_False by (rewrite (elems_length iv); unfold ivLength, aes.BlockSize; lia).
  unfold bind, load, lift, store, raise.
  rewrite contents_make. cbn [contents cipher.b cipher.counter cipher.BlockSize].
  rewrite list_lookup_middle by reflexivity. cbn [default from_option id].
  rewrite length_replicate, decide_False by lia.
  rewrite Hn. unfold aes.BlockSize in *. rewrite Hks.
  rewrite drop_ge by (rewrite length_replicate; lia). rewrite app_nil_r.
  rewrite insert_app_r_alt by lia. rewrite Nat.sub_diag. reflexivity.
Qed.

Lemma contents_fresh (h : heap) (x : list byte) :
  contents (h ++ [x]) (Some (length h)) = x.
Proof. cbn [contents]. rewrite list_lookup_middle by reflexivity. reflexivity. Qed.

Lemma contents_old (h : heap) (x : list byte) (l : nat) :
  l < length h → contents (h ++ [x]) (Some l) = contents h (Some l).
Proof. intros H. cbn [contents]. rewrite lookup_app_l by exact H. reflexivity. Qed.

Lemma A256CTR_unfold key iv (src ks : list byte) :
  (∀ (source : slice) (h : heap),
     length (contents h source) = length src →
     xorA256CTR source key iv h
     = (Returns (Some (length h)), h ++ [cipher.XORBytes (contents h source) ks])) →
  A256CTR key iv src = cipher.XORBytes src ks.
Proof.
  intros Hks. unfold A256CTR. rewrite (Hks (Some 0) [src]) by reflexivity.
  rewrite (contents_fresh [src]). reflexivity.
Qed.

Lemma xorA256CTR_spec (source : slice) key iv (h : heap) :
  xorA256CTR source key iv h
  = (Returns (Some (length h)), h ++ [A256CTR key iv (contents h source)]).
Proof.
  destruct (xorA256CTR_explicit key iv (length (contents h source))) as (ks & _ & Hks).
  rewrite (A256CTR_unfold _ _ _ ks Hks). apply Hks. reflexivity.
Qed.

Lemma A256CTR_length key iv (src : list byte) :
  length (A256CTR key iv src) = length src.
Proof.
  destruct (xorA256CTR_explicit key iv (length src)) as (ks & Hlen & Hks).
  rewrite (A256CTR_unfold _ _ _ ks Hks), XORBytes_length. lia.
Qed.

(** Counter mode is its own inverse. *)
Lemma A256CTR_involutive key iv (src : list byte) :
  A256CTR key iv (A256CTR key iv src) = src.
Proof.
  destruct (xorA256CTR_explicit key iv (length src)) as (ks & Hlen & Hks).
  rewrite (A256CTR_unfold _ _ (A256CTR key iv src) ks).
  - rewrite (A256CTR_unfold _ _ src ks Hks). apply XORBytes_involutive. exact Hlen.
  - rewrite A256CTR_length. exact Hks.
Qed.

Lemma list_byte_of_string_length (s : string) :
  length (String.list_byte_of_string s) = String.length s.
Proof. induction s as [| a s IH]; simpl; [reflexivity | f_equal; exact IH]. Qed.

Lemma with_decoded_same (ef : EncryptedFile) : with_decoded ef (decoded ef) = ef.
Proof. destruct ef. reflexivity. Qed.

Lemma world_eta (w : world) : {| obj := obj w; mem := mem w |} = w.
Proof. destruct w. reflexivity. Qed.

(** Decoding into a zeroed array with room for three bytes per four
    characters: no panic, and the array holds the decoded bytes at its
    front. *)
Lemma DecodeArray_zeroed (enc : base64.Encoding) (n : nat) (s : string) :
  3 * String.length s < 4 * n + 4 →
  DecodeArray enc (fill n []) s
  = let r := base64.decodeQuanta enc (String.list_byte_of_string s) 0 [] [] in
    Returns (fill n r.1, r.2).
Proof.
  intros Hlen. unfold DecodeArray, base64.Decode.
  rewrite <- list_byte_of_string_length in Hlen.
  pose proof (decodeQuanta_length enc (String.list_byte_of_string s) 0 [] []
                ltac:(cbn; lia)) as Hq.
  destruct (base64.decodeQuanta enc _ 0 [] []) as [out err].
  cbn [fst snd length] in *.
  assert (Hz : elems (fill n []) = replicate n x00).
  { cbn [fill elems app]. rewrite take_ge; [reflexivity | rewrite length_replicate; lia]. }
  rewrite Hz, length_replicate, decide_True by lia.
  cbn [and_then]. do 2 f_equal.
  apply array_eq. cbn [fill elems].
  rewrite drop_replicate, <- app_assoc, <- replicate_add.
  rewrite !take_app_ge by lia. rewrite !take_replicate. do 2 f_equal. lia.
Qed.

Lemma base64_lengths :
  keyBase64Length = 43 ∧ hashBase64Length = 43 ∧ ivBase64Length = 22.
Proof. repeat split; reflexivity. Qed.

(** [decodeKeys] never panics; it changes nothing but the cache. *)
Lemma decodeKeys_eq (w : world) :
  decodeKeys w =
    match decoded (obj w) with
    | Some _ => (Returns None, w)
    | None => (Returns (decode_fields (obj w)).1,
               {| obj := with_decoded (obj w) (decode_fields (obj w)).2; mem := mem w |})
    end.
Proof.
  destruct base64_lengths as (Hk & _ & Hv).
  unfold decodeKeys, decode_fields, bind, self.
  destruct (decoded (obj w)) as [d |] eqn:E.
  { rewrite decide_True by discriminate. reflexivity. }
  rewrite decide_False by same.
  assert (Hsame : {| obj := with_decoded (obj w) None; mem := mem w |} = w).
  { rewrite <- E, with_decoded_same. apply world_eta. }
  case_decide as Hkl; [cbn [fst snd]; rewrite Hsame; reflexivity |].
  case_decide as Hvl; [cbn [fst snd]; rewrite Hsame; reflexivity |].
  unfold set_decoded, deref_decoded, bind, self, lift, ret.
  cbn [obj mem decoded with_decoded key iv Key InitVector].
  rewrite DecodeArray_zeroed by (unfold keyLength; lia).
  cbn zeta. fold (key_field (obj w)).
  destruct (base64.decodeQuanta base64.RawURLEncoding (key_field (obj w)) 0 [] [])
    as [k [kerr |]]; cbn [fst snd]; [reflexivity |].
  cbn [obj mem decoded with_decoded key iv Key InitVector].
  rewrite DecodeArray_zeroed by (unfold ivLength; lia).
  cbn zeta. fold (iv_field (obj w)).
  destruct (base64.decodeQuanta base64.RawStdEncoding (iv_field (obj w)) 0 [] [])
    as [v [verr |]]; cbn [fst snd]; reflexivity.
Qed.

(** [checkHash] never panics and changes nothing. *)
Lemma checkHash_eq (ciphertext : slice) (w : world) :
  checkHash ciphertext w = (Returns (digest_ok (obj w) (contents (mem w) ciphertext)), w).
Proof.
  destruct base64_lengths as (_ & Hh & _).
  unfold checkHash, digest_ok, bind, self.
  case_decide as Hl; [reflexivity |].
  unfold lift. rewrite DecodeArray_zeroed by (unfold hashLength; lia).
  cbn zeta. fold (digest_field (obj w)).
  destruct (base64.decodeQuanta base64.RawStdEncoding (digest_field (obj w)) 0 [] [])
    as [hash [err |]]; cbn [fst snd]; [reflexivity |].
  unfold on_mem, load, ret. rewrite world_eta. reflexivity.
Qed.

Lemma Encrypt_eq (plaintext : slice) (w : world) :
  Encrypt plaintext w =
    let w1 := (decodeKeys w).2 in
    match decoded (obj w1) with
    | None => (Panics NilDereference, w1)
    | Some d =>
        let c := A256CTR (key d) (iv d) (contents (mem w1) plaintext) in
        (Returns (Some (length (mem w1))),
         {| obj := with_SHA256 (obj w1)
                     (base64.EncodeToString base64.RawStdEncoding (elems (sha256.Sum256 c)));
            mem := mem w1 ++ [c] |})
    end.
Proof.
  unfold Encrypt, bind. rewrite decodeKeys_eq.
  destruct (decoded (obj w)) as [d |] eqn:E; cbn [snd].
  - rewrite E. unfold deref_decoded, bind, self, ret, on_mem, load, set_SHA256.
    rewrite E, xorA256CTR_spec. cbn [obj mem]. rewrite contents_fresh. reflexivity.
  - set (w1 := {| obj := _; mem := mem w |}).
    unfold deref_decoded, bind, self, ret, raise, on_mem, load, set_SHA256.
    destruct (decoded (obj w1)) as [d |]; [| reflexivity].
    rewrite xorA256CTR_spec. cbn [obj mem]. rewrite contents_fresh. reflexivity.
Qed.

Lemma Decrypt_eq (ciphertext : slice) (w : world) :
  Decrypt ciphertext w =
    if decide (Version (obj w) ≠ "v2") then (Returns (None, Some UnsupportedVersion), w)
    else if decide (JSONWebKey.Algorithm (Key (obj w)) ≠ "A256CTR")
    then (Returns (None, Some UnsupportedAlgorithm), w)
    else if negb (digest_ok (obj w) (contents (mem w) ciphertext))
    then (Returns (None, Some HashMismatch), w)
    else
      let w1 := (decodeKeys w).2 in
      match (decodeKeys w).1 with
      | Returns (Some e) => (Returns (None, Some e), w1)
      | Returns None =>
          match decoded (obj w1) with
          | None => (Panics NilDereference, w1)
          | Some d => (Returns (Some (length (mem w1)), None), after_xor w1 d ciphertext)
          end
      | Panics p => (Panics p, w1)
      end.
Proof.
  unfold Decrypt, bind, self.
  case_decide; [reflexivity |]. case_decide; [reflexivity |].
  rewrite checkHash_eq. unfold ret.
  destruct (digest_ok _ _); cbn [negb]; [| reflexivity].
  destruct (decodeKeys w) as [[[e |] | p] w1]; cbn [fst snd]; [reflexivity | | reflexivity].
  unfold deref_decoded, bind, self, ret, raise, on_mem.
  destruct (decoded (obj w1)) as [d |]; [| reflexivity].
  rewrite xorA256CTR_spec. reflexivity.
Qed.

Lemma genA256CTR_eq (r : rand.Reader) :
  genA256CTR r =
    if decide (32 ≤ length r) then
      if decide (8 ≤ length (drop 32 r)) then
        (Returns (fill keyLength (take 32 r), fill ivLength (take 8 (drop 32 r))),
         drop 8 (drop 32 r))
      else (Panics (PanicError EntropyError), drop 32 r)
    else (Panics (PanicError EntropyError), r).
Proof.
  unfold genA256CTR, bind, rand.Read, keyLength.
  case_decide; [| reflexivity]. case_decide; reflexivity.
Qed.

(** What [NewEncryptedFile] returns, given the random bytes drawn. *)
Lemma NewEncryptedFile_inv (r r' : rand.Reader) (ef : EncryptedFile) :
  NewEncryptedFile r = (Returns ef, r') →
  ∃ k v,
    32 ≤ length r ∧ 8 ≤ length (drop 32 r) ∧
    k = fill keyLength (take 32 r) ∧ v = fill ivLength (take 8 (drop 32 r)) ∧
    ef = {| Key := {| JSONWebKey.Key :=
                        base64.EncodeToString base64.RawURLEncoding (elems k);
                      JSONWebKey.Algorithm := "A256CTR";
                      JSONWebKey.Extractable := true;
                      JSONWebKey.KeyType := "oct";
                      JSONWebKey.KeyOps := ["encrypt"; "decrypt"] |};
            InitVector := base64.EncodeToString base64.RawStdEncoding (elems v);
            Hashes := {| SHA256 := "" |};
            Version := "v2";
            decoded := Some {| key := k; iv := v |} |}.
Proof.
  unfold NewEncryptedFile, bind. rewrite genA256CTR_eq.
  case_decide; [| discriminate]. case_decide; [| discriminate].
  unfold ret. intros [= <- _]. eexists _, _. repeat split; assumption.
Qed.

Lemma NewEncryptedFile_returns (r : rand.Reader) :
  40 ≤ length r → ∃ ef, NewEncryptedFile r = (Returns ef, drop 40 r).
Proof.
  intros H. unfold NewEncryptedFile, bind. rewrite genA256CTR_eq.
  rewrite !decide_True by (rewrite ?length_drop; lia).
  rewrite drop_drop. eexists. reflexivity.
Qed.

(** A digest field written by [Encrypt] for the hash [h] matches exactly
    the data whose SHA-256 is [h]. *)
Lemma digest_ok_encoded (ef : EncryptedFile) (data : list byte) (h : array hashLength) :
  SHA256 (Hashes ef) = base64.EncodeToString base64.RawStdEncoding (elems h) →
  digest_ok ef data = bool_decide (h = sha256.Sum256 data).
Proof.
  intros Hd. unfold digest_ok, digest_field. rewrite Hd.
  rewrite EncodeToString_length, (elems_length h).
  rewrite decide_False by same.
  rewrite EncodeToString_bytes, decodeQuanta_Encode by apply RawStdEncoding_valid.
  cbn [fst snd app]. rewrite fill_elems. reflexivity.
Qed.

Lemma fill_short (n : nat) (l : list byte) :
  length l ≤ n → elems (fill n l) = l ++ replicate (n - length l) x00.
Proof.
  intros H. cbn [fill elems]. rewrite take_app_ge by exact H.
  rewrite take_replicate. do 2 f_equal. lia.
Qed.

(** Decoding the fields that encode a key and an IV gives them back. *)
Lemma decode_fields_encoded (ef : EncryptedFile) (d : decodedKeys) :
  JSONWebKey.Key (Key ef)
    = base64.EncodeToString base64.RawURLEncoding (elems (key d)) →
  InitVector ef = base64.EncodeToString base64.RawStdEncoding (elems (iv d)) →
  decode_fields ef = (None, Some d).
Proof.
  intros Hk Hv. unfold decode_fields, key_field, iv_field. rewrite Hk, Hv.
  rewrite !EncodeToString_length, (elems_length (key d)), (elems_length (iv d)).
  rewrite !decide_False by same.
  rewrite !EncodeToString_bytes.
  rewrite decodeQuanta_Encode by apply RawURLEncoding_valid.
  rewrite decodeQuanta_Encode by apply RawStdEncoding_valid.
  cbn [fst snd app]. rewrite !fill_elems. destruct d. reflexivity.
Qed.

Lemma contents_after_xor (h : heap) (source : slice) key iv :
  contents (h ++ [A256CTR key iv (contents h source)]) source = contents h source.
Proof.
  destruct source as [l |]; [| reflexivity].
  destruct (decide (l < length h)) as [Hlt | Hge]; [apply contents_old, Hlt |].
  assert (Hnil : contents h (Some l) = []).
  { cbn [contents]. rewrite lookup_ge_None_2 by lia. reflexivity. }
  rewrite Hnil.
  assert (Hx : A256CTR key iv [] = []).
  { apply length_zero_iff_nil. rewrite A256CTR_length. reflexivity. }
  rewrite Hx. cbn [contents].
  destruct (decide (l = length h)) as [-> | Hne].
  - rewrite list_lookup_middle by reflexivity. reflexivity.
  - rewrite lookup_ge_None_2; [reflexivity |]. rewrite length_app. cbn [length]. lia.
Qed.

(** [decodeKeys] touches the cache only. *)
Lemma decodeKeys_frame (w : world) :
  Key (obj (decodeKeys w).2) = Key (obj w) ∧
  InitVector (obj (decodeKeys w).2) = InitVector (obj w) ∧
  Hashes (obj (decodeKeys w).2) = Hashes (obj w) ∧
  Version (obj (decodeKeys w).2) = Version (obj w) ∧
  mem (decodeKeys w).2 = mem w.
Proof.
  rewrite decodeKeys_eq. destruct (decoded (obj w)); cbn [snd obj mem with_decoded
    Key InitVector Hashes Version]; repeat split; reflexivity.
Qed.

(** When [decodeKeys] reports no error the cache is set. *)
Lemma decodeKeys_ok (w : world) :
  (decodeKeys w).1 = Returns None → is_Some (decoded (obj (decodeKeys w).2)).
Proof.
  rewrite decodeKeys_eq. destruct (decoded (obj w)) as [d |] eqn:E; cbn [fst snd].
  - intros _. rewrite E. eexists. reflexivity.
  - cbn [obj decoded with_decoded]. unfold decode_fields.
    repeat case_decide; cbn [fst snd]; try discriminate.
    destruct (base64.decodeQuanta base64.RawURLEncoding _ 0 [] []).2;
      cbn [fst snd]; [discriminate |].
    intros _. eexists. reflexivity.
Qed.

Lemma decodeKeys_returns (w : world) : ∃ e, (decodeKeys w).1 = Returns e.
Proof. rewrite decodeKeys_eq. destruct (decoded (obj w)); eexists; reflexivity. Qed.

(** [Decrypt] never panics: it reports [first_failure], with the nil
    slice, or returns a new buffer. *)
Lemma Decrypt_first_failure (w : world) (ciphertext : slice) :
  ∃ w',
    Decrypt ciphertext w
    = (Returns (match first_failure (obj w) (contents (mem w) ciphertext) with
                | Some _ => None
                | None => Some (length (mem w))
                end,
                first_failure (obj w) (contents (mem w) ciphertext)), w').
Proof.
  rewrite Decrypt_eq. unfold first_failure. cbv zeta.
  case_decide; [eexists; reflexivity |]. case_decide; [eexists; reflexivity |].
  destruct (negb _); [eexists; reflexivity |].
  rewrite decodeKeys_eq.
  destruct (decoded (obj w)) as [d |] eqn:E; cbn [fst snd].
  { rewrite E. eexists. reflexivity. }
  unfold decode_fields.
  case_decide; [eexists; reflexivity |]. case_decide; [eexists; reflexivity |].
  destruct (base64.decodeQuanta base64.RawURLEncoding _ 0 [] []).2 as [e |];
    cbn [fst snd obj decoded with_decoded mem].
  { rewrite decide_True by discriminate. eexists. reflexivity. }
  rewrite decide_False by same.
  destruct (base64.decodeQuanta base64.RawStdEncoding _ 0 [] []).2 as [e |].
  { rewrite decide_True by discriminate. eexists. reflexivity. }
  rewrite decide_False by same.
  eexists. reflexivity.
Qed.

(** After [Encrypt] on a fresh descriptor, [Decrypt] of any other bytes
    put in the ciphertext buffer fails with HashMismatch exactly when
    their SHA-256 differs from that of the ciphertext; bytes with the
    same SHA-256 would be decrypted. *)
Lemma Decrypt_tampered
    (r r' : rand.Reader) (ef : EncryptedFile) (h : heap) (plaintext : slice)
    (tampered : list byte) :
  NewEncryptedFile r = (Returns ef, r') →
  let w1 := (Encrypt plaintext {| obj := ef; mem := h |}).2 in
  let c := contents (mem w1) (Some (length h)) in
  let w2 := {| obj := obj w1; mem := <[length h := tampered]> (mem w1) |} in
  (Encrypt plaintext {| obj := ef; mem := h |}).1 = Returns (Some (length h)) ∧
  (Decrypt (Some (length h)) w2).1 =
    if decide (sha256.Sum256 c = sha256.Sum256 tampered)
    then Returns (Some (S (length h)), None)
    else Returns (None, Some HashMismatch).
Proof.
  intros Hnew. destruct (NewEncryptedFile_inv _ _ _ Hnew) as (k & v & _ & _ & _ & _ & ->).
  rewrite Encrypt_eq, decodeKeys_eq. cbv zeta. cbn [obj mem decoded snd fst key iv].
  split; [reflexivity |]. rewrite contents_fresh.
  set (c := A256CTR k v (contents h plaintext)).
  rewrite insert_app_r_alt, Nat.sub_diag by lia. cbn [insert list_insert].
  match goal with
  | |- context [Decrypt ?s ?w] => destruct (Decrypt_first_failure w s) as [w' ->]
  end.
  cbn [fst obj mem]. rewrite contents_fresh. unfold first_failure.
  cbn [with_SHA256 Version Key JSONWebKey.Algorithm decoded].
  rewrite !decide_False by same.
  rewrite (digest_ok_encoded _ tampered (sha256.Sum256 c)) by reflexivity.
  rewrite length_app. cbn [length]. rewrite Nat.add_1_r.
  case_decide as Hs.
  - rewrite bool_decide_eq_true_2 by exact Hs. reflexivity.
  - rewrite bool_decide_eq_false_2 by exact Hs. reflexivity.
Qed.

(** [sample_file] is what [NewEncryptedFile] returns on [sample_random]. *)
Example sample_file_fresh :
  NewEncryptedFile sample_random = (Returns sample_file, drop 40 sample_random).
Proof. reflexivity. Qed.

Lemma EncryptedFile_eq (ef ef' : EncryptedFile) :
  Key ef = Key ef' → InitVector ef = InitVector ef' → Hashes ef = Hashes ef' →
  Version ef = Version ef' → decoded ef = decoded ef' → ef = ef'.
Proof. destruct ef, ef'. cbn. intros -> -> -> -> ->. reflexivity. Qed.

(** What a second [Decrypt] of the same ciphertext reports: the same as
    the first when the first left the cache as it was; nothing when the
    first changed the cache, whatever the first reported. *)
Lemma Decrypt_again (w : world) (ciphertext : slice) :
  let w1 := (Decrypt ciphertext w).2 in
  (decoded (obj w1) = decoded (obj w) →
   first_failure (obj w1) (contents (mem w1) ciphertext)
   = first_failure (obj w) (contents (mem w) ciphertext)) ∧
  (decoded (obj w1) ≠ decoded (obj w) →
   first_failure (obj w1) (contents (mem w1) ciphertext) = None).
Proof.
  cbv zeta. split.
  - intros Hd. rewrite Decrypt_eq in *. cbv zeta in *.
    destruct (decodeKeys_frame w) as (Hk & Hv & Hh & Hn & Hm).
    repeat case_decide; try reflexivity.
    destruct (negb _); [reflexivity |].
    destruct (decodeKeys w).1 as [[e |] | p]; cbn [snd] in *;
      try (rewrite (EncryptedFile_eq _ (obj w) Hk Hv Hh Hn Hd), Hm; reflexivity).
    destruct (decoded (obj (decodeKeys w).2)) as [d |] eqn:E; cbn [snd] in *;
      try (rewrite (EncryptedFile_eq _ (obj w) Hk Hv Hh Hn Hd), Hm; reflexivity).
    unfold after_xor in *. cbn [obj mem] in *.
    rewrite contents_after_xor, Hm.
    rewrite (EncryptedFile_eq _ (obj w) Hk Hv Hh Hn); [reflexivity |].
    rewrite <- Hd. reflexivity.
  - rewrite Decrypt_eq. cbv zeta.
    case_decide as Hver; [intros Hx; contradict Hx; reflexivity |].
    case_decide as Halg; [intros Hx; contradict Hx; reflexivity |].
    destruct (digest_ok (obj w) (contents (mem w) ciphertext)) eqn:Hdig; cbn [negb];
      [| intros Hx; contradict Hx; reflexivity].
    rewrite decodeKeys_eq.
    destruct (decoded (obj w)) as [d |] eqn:E; cbn [fst snd].
    { rewrite E. unfold after_xor. cbn [snd obj]. intros Hx. contradict Hx. exact E. }
    unfold decode_fields.
    case_decide; [cbn [fst snd obj decoded with_decoded]; intros Hx; contradict Hx;
                  reflexivity |].
    case_decide; [cbn [fst snd obj decoded with_decoded]; intros Hx; contradict Hx;
                  reflexivity |].
    assert (Hff : ∀ d h,
      contents h ciphertext = contents (mem w) ciphertext →
      first_failure (with_decoded (obj w) (Some d)) (contents h ciphertext) = None).
    { intros d h Hc. unfold first_failure.
      cbn [with_decoded Version Key decoded].
      rewrite !decide_False by (intros Hx; apply Hx; assumption).
      rewrite Hc.
      assert (Hdo : digest_ok (with_decoded (obj w) (Some d)) (contents (mem w) ciphertext)
                    = true) by exact Hdig.
      rewrite Hdo. reflexivity. }
    destruct (base64.decodeQuanta base64.RawURLEncoding _ 0 [] []).2 as [e |];
      cbn [fst snd obj decoded with_decoded mem].
    { intros _. apply Hff. reflexivity. }
    destruct (base64.decodeQuanta base64.RawStdEncoding _ 0 [] []).2 as [e |];
      cbn [fst snd obj decoded with_decoded mem].
    { intros _. apply Hff. reflexivity. }
    unfold after_xor. cbn [snd obj mem with_decoded decoded].
    intros _. apply Hff. apply contents_after_xor.
Qed.

End attachment_facts.


(** * The claims *)

Section claims.

(** C1. For every plaintext byte sequence, on a freshly created
    descriptor, [Encrypt] returns a ciphertext and [Decrypt] of that
    ciphertext succeeds (nil error) with a buffer that holds the
    plaintext. *)
Theorem Decrypt_Encrypt_roundtrip
    (r r' : rand.Reader) (ef : EncryptedFile) (h : heap) (plaintext : slice) :
  NewEncryptedFile r = (Returns ef, r') →
  ∃ ciphertext w1 result w2,
    Encrypt plaintext {| obj := ef; mem := h |} = (Returns ciphertext, w1) ∧
    Decrypt ciphertext w1 = (Returns (result, None), w2) ∧
    contents (mem w2) result = contents h plaintext.
Proof.
  intros Hnew. destruct (NewEncryptedFile_inv _ _ _ Hnew) as (k & v & _ & _ & _ & _ & ->).
  rewrite Encrypt_eq, decodeKeys_eq. cbn [obj mem decoded snd key iv].
  set (c := A256CTR k v (contents h plaintext)).
  eexists _, _, _, _. split; [reflexivity |].
  rewrite Decrypt_eq, decodeKeys_eq.
  cbn [obj mem decoded with_SHA256 Version Key JSONWebKey.Algorithm fst snd].
  rewrite !decide_False by same.
  rewrite contents_fresh.
  rewrite (digest_ok_encoded _ c (sha256.Sum256 c)) by reflexivity.
  rewrite bool_decide_eq_true_2 by reflexivity. cbn [negb].
  split; [reflexivity |]. unfold after_xor. cbn [obj mem key iv].
  rewrite (contents_fresh (h ++ [c])), contents_fresh.
  apply A256CTR_involutive.
Qed.

Lemma Decrypt_Encrypt_roundtrip_witness :
  ∃ ciphertext w1 result w2,
    Encrypt (Some 0) {| obj := sample_file; mem := [sample_message] |}
    = (Returns ciphertext, w1) ∧
    Decrypt ciphertext w1 = (Returns (result, None), w2) ∧
    contents (mem w2) result = contents [sample_message] (Some 0).
Proof.
  apply (Decrypt_Encrypt_roundtrip sample_random (drop 40 sample_random)).
  reflexivity.
Defined.

(** C2, as stated, fails: on a descriptor with the right version,
    algorithm and digest, no cache, a key field of the right length that
    is not valid URL-safe base64 and an IV field of the wrong length, the
    order "key, then IV" asks for InvalidKey and [Decrypt] reports
    InvalidInitVector. *)
Lemma check_order_counterexample :
  let w := {| obj := received std_alphabet_key ""; mem := [sample_message] |} in
  (Decrypt (Some 0) w).1 = Returns (None, Some InvalidInitVector) ∧
  claimed_failure (obj w) (contents (mem w) (Some 0)) = Some InvalidKey.
Proof. vm_compute. split; reflexivity. Qed.

(** C2, amended. [Decrypt] checks, and stops at the first failure, in the
    order: version, algorithm, digest, and then, only when the decoded
    cache is unset, length of the key field, length of the IV field,
    base64 of the key field, base64 of the IV field ([first_failure]);
    with a cache the key and IV fields are not looked at. So a descriptor
    with a wrong version fails with UnsupportedVersion whatever its
    digest, and InvalidKey is reported only when the version, algorithm
    and digest checks pass. *)
Theorem Decrypt_check_order (w : world) (ciphertext : slice) :
  (∃ w',
     Decrypt ciphertext w
     = (Returns (match first_failure (obj w) (contents (mem w) ciphertext) with
                 | Some _ => None
                 | None => Some (length (mem w))
                 end,
                 first_failure (obj w) (contents (mem w) ciphertext)), w')) ∧
  (Version (obj w) ≠ "v2" →
   (Decrypt ciphertext w).1 = Returns (None, Some UnsupportedVersion)) ∧
  (∀ result, (Decrypt ciphertext w).1 = Returns (result, Some InvalidKey) →
     Version (obj w) = "v2" ∧ JSONWebKey.Algorithm (Key (obj w)) = "A256CTR" ∧
     digest_ok (obj w) (contents (mem w) ciphertext) = true).
Proof.
  destruct (Decrypt_first_failure w ciphertext) as [w' Hd].
  split; [eexists; exact Hd |]. rewrite Hd. cbn [fst]. split.
  - intros Hv. unfold first_failure. rewrite decide_True by exact Hv. reflexivity.
  - intros result [= _ Hf]. revert Hf. unfold first_failure.
    case_decide as Hv; [discriminate |]. case_decide as Ha; [discriminate |].
    destruct (digest_ok _ _); cbn [negb]; [| discriminate].
    intros _. repeat split.
    + destruct (decide (Version (obj w) = "v2")); [assumption | contradiction].
    + destruct (decide (JSONWebKey.Algorithm (Key (obj w)) = "A256CTR"));
        [assumption | contradiction].
Qed.

Lemma Decrypt_check_order_witness :
  (Decrypt (Some 0)
     {| obj := {| Key := Key sample_file; InitVector := InitVector sample_file;
                  Hashes := {| SHA256 := "wrong" |}; Version := "v1";
                  decoded := None |};
        mem := [sample_message] |}).1
  = Returns (None, Some UnsupportedVersion).
Proof.
  apply (proj1 (proj2 (Decrypt_check_order _ _))). cbn. discriminate.
Defined.

(** C3 is [tamper_detection]. It holds exactly when SHA-256 tells every
    byte sequence from those one bit away, which is a property of
    SHA-256 alone and is left open here. *)
Lemma tamper_detection_iff : tamper_detection ↔ one_bit_apart_differ.
Proof.
  split.
  - intros Htd c i Hi Hs.
    destruct (NewEncryptedFile_returns sample_random) as [ef Hnew];
      [vm_compute; lia |].
    destruct (NewEncryptedFile_inv _ _ _ Hnew) as (k & v & _ & _ & _ & _ & Hef).
    pose proof (Htd _ _ ef [A256CTR k v c] (Some 0) i Hnew) as H.
    destruct (Decrypt_tampered _ _ ef [A256CTR k v c] (Some 0)
                (flip_bit i (A256CTR k v (A256CTR k v c))) Hnew) as [_ Hd].
    cbv zeta in H, Hd.
    assert (Hc : contents (mem (Encrypt (Some 0) {| obj := ef; mem := [A256CTR k v c] |}).2)
                   (Some 1) = c).
    { rewrite Encrypt_eq, decodeKeys_eq, Hef. cbv zeta.
      cbn [obj mem decoded snd key iv]. rewrite (contents_fresh [A256CTR k v c]).
      apply A256CTR_involutive. }
    cbn [length] in H, Hd. rewrite Hc in H, Hd. rewrite A256CTR_involutive in Hd.
    rewrite H, decide_True in Hd by (exact Hi || exact Hs). discriminate.
  - intros Hsha r r' ef h plaintext i Hnew w1 c Hi.
    destruct (Decrypt_tampered _ _ ef h plaintext (flip_bit i c) Hnew) as [_ Hd].
    cbv zeta in Hd. fold w1 in Hd. fold c in Hd.
    rewrite decide_False in Hd by (apply Hsha, Hi). exact Hd.
Qed.

(** One bit flipped in the sample ciphertext: [Decrypt] fails. *)
Example tampered_sample :
  let w1 := (Encrypt (Some 0) {| obj := sample_file; mem := [sample_message] |}).2 in
  let c := contents (mem w1) (Some 1) in
  (Decrypt (Some 1) {| obj := obj w1; mem := <[1 := flip_bit 9 c]> (mem w1) |}).1
  = Returns (None, Some HashMismatch).
Proof. vm_compute. reflexivity. Qed.

(** C4: the code at a failing input. The descriptor has no cache and a
    key field in the standard alphabet: [decodeKeys] reports InvalidKey,
    yet [Encrypt] returns a ciphertext, the plaintext encrypted under the
    all-zero key and IV left in the cache, and stores its digest. *)
Theorem Encrypt_swallows_decode_failure :
  let w := {| obj := received std_alphabet_key "4+rx+P8GDRQAAAAAAAAAAA";
              mem := [sample_message] |} in
  (decodeKeys w).1 = Returns (Some InvalidKey) ∧
  (Encrypt (Some 0) w).1 = Returns (Some 1) ∧
  contents (mem (Encrypt (Some 0) w).2) (Some 1)
    = A256CTR (fill keyLength []) (fill ivLength []) sample_message ∧
  byte_Z <$> contents (mem (Encrypt (Some 0) w).2) (Some 1)
    = [180; 240; 172; 20; 205; 96; 254; 230; 223; 36; 198]%Z ∧
  SHA256 (Hashes (obj (Encrypt (Some 0) w).2))
    = "g/CVKWQvDREuvqN6I2SA0CnxO8l5K1chp2YuNW2uBDg".
Proof. vm_compute. repeat split; reflexivity. Qed.

(** C5: the code at a failing input. On a descriptor with no cache whose
    key field (or IV field) has the right length but is not valid base64,
    the first [Decrypt] fails with InvalidKey (InvalidInitVector) and
    leaves a cache behind, and the second [Decrypt] of the same
    ciphertext returns a plaintext and no error. *)
Theorem Decrypt_twice_differs :
  let w := {| obj := received std_alphabet_key "4+rx+P8GDRQAAAAAAAAAAA";
              mem := [sample_message] |} in
  let w' := {| obj := received "AwoRGB8mLTQ7QklQV15lbHN6gYiPlp2kq7K5wMfO1dw"
                        url_alphabet_iv;
               mem := [sample_message] |} in
  ((Decrypt (Some 0) w).1 = Returns (None, Some InvalidKey) ∧
   (Decrypt (Some 0) (Decrypt (Some 0) w).2).1 = Returns (Some 1, None)) ∧
  ((Decrypt (Some 0) w').1 = Returns (None, Some InvalidInitVector) ∧
   (Decrypt (Some 0) (Decrypt (Some 0) w').2).1 = Returns (Some 1, None)).
Proof. vm_compute. repeat split; reflexivity. Qed.

(** C6. For every freshly generated descriptor, whatever random bytes
    are drawn, the decoded IV has 16 bytes, the first 8 are the random
    bytes drawn for it, the last 8 are zero, and the IV field is the
    standard unpadded base64 encoding of the whole 16-byte buffer. *)
Theorem NewEncryptedFile_iv (r r' : rand.Reader) (ef : EncryptedFile) :
  NewEncryptedFile r = (Returns ef, r') →
  ∃ d, decoded ef = Some d ∧
       length (elems (iv d)) = 16 ∧
       take 8 (elems (iv d)) = take 8 (drop 32 r) ∧
       drop 8 (elems (iv d)) = replicate 8 x00 ∧
       InitVector ef = base64.EncodeToString base64.RawStdEncoding (elems (iv d)) ∧
       String.length (InitVector ef) = 22.
Proof.
  intros Hnew.
  destruct (NewEncryptedFile_inv _ _ _ Hnew) as (k & v & _ & Hr & _ & Hv & ->).
  exists {| key := k; iv := v |}. cbn [decoded iv InitVector].
  assert (Hlen : length (take 8 (drop 32 r)) = 8) by (rewrite length_take; lia).
  assert (He : elems v = take 8 (drop 32 r) ++ replicate 8 x00).
  { rewrite Hv, fill_short by (rewrite Hlen; unfold ivLength; lia).
    rewrite Hlen. reflexivity. }
  split; [reflexivity |]. split; [apply (elems_length v) |].
  split; [rewrite He, take_app_length' by (symmetry; exact Hlen); reflexivity |].
  split; [rewrite He, drop_app_length' by (symmetry; exact Hlen); reflexivity |].
  split; [reflexivity |].
  rewrite EncodeToString_length, (elems_length v). reflexivity.
Qed.

Lemma NewEncryptedFile_iv_witness :
  ∃ d, decoded sample_file = Some d ∧
       length (elems (iv d)) = 16 ∧
       take 8 (elems (iv d)) = take 8 (drop 32 sample_random) ∧
       drop 8 (elems (iv d)) = replicate 8 x00 ∧
       InitVector sample_file
         = base64.EncodeToString base64.RawStdEncoding (elems (iv d)) ∧
       String.length (InitVector sample_file) = 22.
Proof.
  apply (NewEncryptedFile_iv sample_random (drop 40 sample_random)).
  reflexivity.
Defined.

(** C7. [xorA256CTR] returns a buffer as long as its source. [Encrypt]
    either returns a ciphertext as long as the plaintext or panics on the
    nil cache, which happens exactly for a descriptor with no cache and a
    key or IV field of the wrong length. [Decrypt] never panics, returns
    the nil slice with an error, and on success returns a plaintext as
    long as the ciphertext. *)
Theorem lengths_preserved (w : world) (input : slice) :
  (∀ key iv h, ∃ result h',
      xorA256CTR input key iv h = (Returns result, h') ∧
      length (contents h' result) = length (contents h input)) ∧
  match Encrypt input w with
  | (Returns ciphertext, w') =>
      length (contents (mem w') ciphertext) = length (contents (mem w) input)
  | (Panics p, _) =>
      p = NilDereference ∧ decoded (obj w) = None ∧
      (String.length (JSONWebKey.Key (Key (obj w))) ≠ 43 ∨
       String.length (InitVector (obj w)) ≠ 22)
  end ∧
  match Decrypt input w with
  | (Returns (plaintext, None), w') =>
      length (contents (mem w') plaintext) = length (contents (mem w) input)
  | (Returns (plaintext, Some _), _) => plaintext = None
  | (Panics _, _) => False
  end.
Proof.
  split; [| split].
  - intros key iv h. eexists _, _. split; [apply xorA256CTR_spec |].
    rewrite contents_fresh. apply A256CTR_length.
  - rewrite Encrypt_eq. cbv zeta. destruct (decodeKeys_frame w) as (_ & _ & _ & _ & Hm).
    destruct (decoded (obj (decodeKeys w).2)) as [d |] eqn:E.
    + cbv beta iota zeta. cbn [mem]. rewrite contents_fresh, A256CTR_length, Hm. reflexivity.
    + cbv beta iota zeta. revert E. rewrite decodeKeys_eq.
      destruct (decoded (obj w)) as [d |] eqn:E0; cbn [snd obj decoded with_decoded].
      * rewrite E0. discriminate.
      * unfold decode_fields. destruct base64_lengths as (-> & _ & ->).
        repeat case_decide; cbn [fst snd]; try (intros _; repeat split; tauto).
        destruct (base64.decodeQuanta base64.RawURLEncoding _ 0 [] []).2;
          cbn [fst snd]; discriminate.
  - rewrite Decrypt_eq. cbv zeta. repeat case_decide; try reflexivity.
    destruct (negb _); [reflexivity |].
    destruct (decodeKeys_frame w) as (_ & _ & _ & _ & Hm).
    pose proof (decodeKeys_ok w) as Hok.
    destruct (decodeKeys w).1 as [[e |] | p] eqn:E; [reflexivity | |].
    + destruct (Hok eq_refl) as [d ->]. unfold after_xor. cbn [mem].
      rewrite contents_fresh, A256CTR_length, Hm. reflexivity.
    + destruct (decodeKeys_returns w) as [e He]. congruence.
Qed.

(** C8. Two calls of [Encrypt] on plaintexts with the same bytes, under
    the same decoded key and IV, return ciphertexts with the same bytes
    and store the same digest, whatever else differs between the two
    descriptors and stores. *)
Theorem Encrypt_deterministic
    (w1 w2 : world) (p1 p2 : slice) (d : decodedKeys) :
  decoded (obj w1) = Some d → decoded (obj w2) = Some d →
  contents (mem w1) p1 = contents (mem w2) p2 →
  ∃ c1 w1' c2 w2',
    Encrypt p1 w1 = (Returns c1, w1') ∧ Encrypt p2 w2 = (Returns c2, w2') ∧
    contents (mem w1') c1 = contents (mem w2') c2 ∧
    SHA256 (Hashes (obj w1')) = SHA256 (Hashes (obj w2')).
Proof.
  intros H1 H2 Hp. rewrite !Encrypt_eq, !decodeKeys_eq, H1, H2. cbn [snd].
  rewrite H1, H2. cbn zeta. eexists _, _, _, _.
  split; [reflexivity |]. split; [reflexivity |].
  cbn [obj mem with_SHA256 Hashes SHA256]. rewrite !contents_fresh, Hp.
  split; reflexivity.
Qed.

Lemma Encrypt_deterministic_witness :
  ∃ c1 w1' c2 w2',
    Encrypt (Some 0) {| obj := sample_file; mem := [sample_message] |} = (Returns c1, w1') ∧
    Encrypt (Some 1) {| obj := with_SHA256 sample_file "stale";
                        mem := [[]; sample_message] |} = (Returns c2, w2') ∧
    contents (mem w1') c1 = contents (mem w2') c2 ∧
    SHA256 (Hashes (obj w1')) = SHA256 (Hashes (obj w2')).
Proof.
  apply (Encrypt_deterministic _ _ _ _ sample_keys); reflexivity.
Defined.

(** C9. Every descriptor returned by [NewEncryptedFile] has version "v2",
    algorithm "A256CTR", extractable true, key type "oct", key_ops
    ["encrypt"; "decrypt"], an empty digest, a key field that is the
    unpadded URL-safe base64 encoding of the 32 key bytes drawn, and a
    pre-populated cache that matches the fields: decoding the key and IV
    fields gives that cache, without error. *)
Theorem NewEncryptedFile_fields (r r' : rand.Reader) (ef : EncryptedFile) :
  NewEncryptedFile r = (Returns ef, r') →
  Version ef = "v2" ∧
  JSONWebKey.Algorithm (Key ef) = "A256CTR" ∧
  JSONWebKey.Extractable (Key ef) = true ∧
  JSONWebKey.KeyType (Key ef) = "oct" ∧
  JSONWebKey.KeyOps (Key ef) = ["encrypt"; "decrypt"] ∧
  SHA256 (Hashes ef) = "" ∧
  ∃ d, decoded ef = Some d ∧
       elems (key d) = take 32 r ∧
       JSONWebKey.Key (Key ef)
         = base64.EncodeToString base64.RawURLEncoding (elems (key d)) ∧
       String.length (JSONWebKey.Key (Key ef)) = 43 ∧
       InitVector ef = base64.EncodeToString base64.RawStdEncoding (elems (iv d)) ∧
       decode_fields ef = (None, Some d).
Proof.
  intros Hnew.
  destruct (NewEncryptedFile_inv _ _ _ Hnew) as (k & v & Hr & _ & Hk & _ & ->).
  cbn [Version Key Hashes SHA256 decoded InitVector JSONWebKey.Algorithm
       JSONWebKey.Extractable JSONWebKey.KeyType JSONWebKey.KeyOps JSONWebKey.Key].
  repeat (split; [reflexivity |]).
  exists {| key := k; iv := v |}. cbn [key iv].
  split; [reflexivity |]. split.
  { rewrite Hk. apply fill_exact. rewrite length_take. unfold keyLength. lia. }
  split; [reflexivity |]. split.
  { rewrite EncodeToString_length, (elems_length k). reflexivity. }
  split; [reflexivity |].
  apply decode_fields_encoded; reflexivity.
Qed.

Lemma NewEncryptedFile_fields_witness :
  Version sample_file = "v2" ∧
  JSONWebKey.Algorithm (Key sample_file) = "A256CTR" ∧
  JSONWebKey.Extractable (Key sample_file) = true ∧
  JSONWebKey.KeyType (Key sample_file) = "oct" ∧
  JSONWebKey.KeyOps (Key sample_file) = ["encrypt"; "decrypt"] ∧
  SHA256 (Hashes sample_file) = "" ∧
  ∃ d, decoded sample_file = Some d ∧
       elems (key d) = take 32 sample_random ∧
       JSONWebKey.Key (Key sample_file)
         = base64.EncodeToString base64.RawURLEncoding (elems (key d)) ∧
       String.length (JSONWebKey.Key (Key sample_file)) = 43 ∧
       InitVector sample_file
         = base64.EncodeToString base64.RawStdEncoding (elems (iv d)) ∧
       decode_fields sample_file = (None, Some d).
Proof.
  apply (NewEncryptedFile_fields sample_random (drop 40 sample_random)).
  reflexivity.
Defined.

(** C10. [Decrypt] leaves the key object, the IV string, the digest and
    the version as they are, and [Encrypt] leaves the key object, the IV
    string and the version as they are; both only add buffers to the
    store, so every buffer that exists stays as it is, and the input
    slice holds the same bytes afterwards. *)
Theorem Decrypt_Encrypt_frame (w : world) (input : slice) :
  let wd := (Decrypt input w).2 in
  let we := (Encrypt input w).2 in
  (Key (obj wd) = Key (obj w) ∧ InitVector (obj wd) = InitVector (obj w) ∧
   Hashes (obj wd) = Hashes (obj w) ∧ Version (obj wd) = Version (obj w) ∧
   mem w `prefix_of` mem wd ∧
   contents (mem wd) input = contents (mem w) input) ∧
  (Key (obj we) = Key (obj w) ∧ InitVector (obj we) = InitVector (obj w) ∧
   Version (obj we) = Version (obj w) ∧
   mem w `prefix_of` mem we ∧
   contents (mem we) input = contents (mem w) input).
Proof.
  destruct (decodeKeys_frame w) as (Hk & Hv & Hh & Hn & Hm).
  cbn zeta. split.
  - rewrite Decrypt_eq. cbv zeta.
    repeat case_decide; try (cbn [snd]; repeat split; reflexivity).
    destruct (negb _); [cbn [snd]; repeat split; reflexivity |].
    destruct (decodeKeys w).1 as [[e |] | p];
      try (cbn [snd]; rewrite Hk, Hv, Hh, Hn, Hm; repeat split; reflexivity).
    destruct (decoded (obj (decodeKeys w).2)) as [d |];
      [| cbn [snd]; rewrite Hk, Hv, Hh, Hn, Hm; repeat split; reflexivity].
    unfold after_xor. cbn [snd obj mem]. rewrite contents_after_xor, Hk, Hv, Hh, Hn, Hm.
    repeat split; try reflexivity. apply prefix_app_r. reflexivity.
  - rewrite Encrypt_eq. cbv zeta.
    destruct (decoded (obj (decodeKeys w).2)) as [d |];
      [| cbn [snd]; rewrite Hk, Hv, Hn, Hm; repeat split; reflexivity].
    cbn [snd obj mem with_SHA256 Key InitVector Version].
    rewrite contents_after_xor, Hk, Hv, Hn, Hm.
    repeat split; try reflexivity. apply prefix_app_r. reflexivity.
Qed.

End claims.

(** * Further properties *)

(** ** The counter and the key stream *)

Section counter_facts.

Import cipher.

Local Open Scope Z_scope.

Lemma Z_byte_mod (a b : Z) : a `mod` 256 = b `mod` 256 → Z_byte a = Z_byte b.
Proof. intros H. apply Z_byte_eq. rewrite byte_Z_Z_byte. exact H. Qed.

Lemma Z_byte_zero (z : Z) : Z_byte z = x00 ↔ z `mod` 256 = 0.
Proof.
  split.
  - intros H. rewrite <- byte_Z_Z_byte, H. reflexivity.
  - intros H. apply Z_byte_eq. rewrite H. reflexivity.
Qed.

(** Incrementing the counter adds one to the number it holds. *)
Lemma increment_rev_le (n : nat) :
  ∀ z, increment_rev (le_bytes n z) = le_bytes n (z + 1).
Proof.
  induction n as [| n IH]; intros z; [reflexivity |].
  cbn [le_bytes increment_rev]. rewrite byte_Z_Z_byte.
  assert (Hb : Z_byte (z `mod` 256 + 1) = Z_byte (z + 1)).
  { apply Z_byte_mod. rewrite Z.add_mod_idemp_l by lia. reflexivity. }
  rewrite Hb.
  case_decide as Hz.
  - do 2 f_equal. rewrite !Z.shiftr_div_pow2 by lia. change (2 ^ 8) with 256.
    rewrite Z_byte_zero in Hz. Z.div_mod_to_equations. lia.
  - f_equal. rewrite IH. f_equal.
    assert (Hz' : (z + 1) `mod` 256 = 0).
    { apply Z_byte_zero. destruct (decide (Z_byte (z + 1) = x00)); [assumption | tauto]. }
    rewrite !Z.shiftr_div_pow2 by lia. change (2 ^ 8) with 256.
    Z.div_mod_to_equations. lia.
Qed.

Lemma le_bytes_length (n : nat) (z : Z) : length (le_bytes n z) = n.
Proof. revert z. induction n as [| n IH]; intros z; cbn; [reflexivity | rewrite IH; reflexivity]. Qed.

Lemma le_bytes_value (c : list byte) : le_bytes (length c) (le_value c) = c.
Proof.
  induction c as [| x c IH]; [reflexivity |].
  cbn [length le_bytes le_value]. pose proof (byte_Z_range x). f_equal.
  - apply Z_byte_eq. Z.div_mod_to_equations. lia.
  - rewrite Z.shiftr_div_pow2 by lia. change (2 ^ 8) with 256.
    replace ((byte_Z x + 256 * le_value c) / 256) with (le_value c)
      by (Z.div_mod_to_equations; lia).
    exact IH.
Qed.

Lemma le_value_range (c : list byte) : 0 ≤ le_value c < 256 ^ Z.of_nat (length c).
Proof.
  induction c as [| x c IH]; [cbn; lia |].
  cbn [length le_value]. pose proof (byte_Z_range x).
  rewrite Nat2Z.inj_succ, Z.pow_succ_r by lia. lia.
Qed.

(** The bytes of a number depend on it modulo [256 ^ n] only. *)
Lemma le_bytes_mod (n : nat) :
  ∀ z, le_bytes n (z `mod` 256 ^ Z.of_nat n) = le_bytes n z.
Proof.
  induction n as [| n IH]; intros z; [reflexivity |].
  cbn [le_bytes]. rewrite Nat2Z.inj_succ, Z.pow_succ_r by lia.
  assert (Hp : 0 < 256 ^ Z.of_nat n) by (apply Z.pow_pos_nonneg; lia).
  rewrite Z.rem_mul_r by lia. f_equal.
  - apply Z_byte_mod. rewrite Z.add_mod, Z.mod_mod, Z.mul_comm, Z.mod_mul by lia.
    rewrite Z.add_0_r, Z.mod_mod by lia. reflexivity.
  - rewrite !Z.shiftr_div_pow2 by lia. change (2 ^ 8) with 256.
    rewrite <- (IH (z / 256)). f_equal.
    pose proof (Z.mod_pos_bound z 256 ltac:(lia)).
    rewrite Z.mul_comm, Z.div_add by lia. rewrite Z.div_small by lia. lia.
Qed.

Lemma iter_increment_length (i : nat) (c : list byte) :
  length (Nat.iter i increment c) = length c.
Proof.
  induction i as [| i IH]; [reflexivity |].
  rewrite Nat.iter_succ, increment_length. exact IH.
Qed.

(** After [i] increments the counter holds the number it started with
    plus [i], modulo [256 ^ length]. *)
Lemma iter_increment (i : nat) (c : list byte) :
  Nat.iter i increment c
  = be_bytes (length c) ((be_value c + Z.of_nat i) `mod` 256 ^ Z.of_nat (length c)).
Proof.
  unfold be_bytes, be_value. rewrite le_bytes_mod.
  induction i as [| i IH].
  - cbn [Nat.iter nat_rect]. rewrite Z.add_0_r, <- (length_rev c), le_bytes_value.
    symmetry. apply rev_involutive.
  - rewrite Nat.iter_succ, IH. unfold increment.
    rewrite rev_involutive, increment_rev_le. do 2 f_equal. lia.
Qed.

(** While the number held by the last [n] bytes stays below [256 ^ n],
    incrementing leaves the bytes before them alone. *)
Lemma increment_rev_low (n : nat) (rest : list byte) :
  ∀ z, 0 ≤ z → z + 1 < 256 ^ Z.of_nat n →
  increment_rev (le_bytes n z ++ rest) = le_bytes n (z + 1) ++ rest.
Proof.
  induction n as [| n IH]; intros z Hz Hlt; [cbn in Hlt; lia |].
  rewrite Nat2Z.inj_succ, Z.pow_succ_r in Hlt by lia.
  cbn [le_bytes increment_rev app]. rewrite byte_Z_Z_byte.
  assert (Hb : Z_byte (z `mod` 256 + 1) = Z_byte (z + 1)).
  { apply Z_byte_mod. rewrite Z.add_mod_idemp_l by lia. reflexivity. }
  rewrite Hb.
  case_decide as Hnz.
  - do 3 f_equal. rewrite !Z.shiftr_div_pow2 by lia. change (2 ^ 8) with 256.
    rewrite Z_byte_zero in Hnz. Z.div_mod_to_equations. lia.
  - assert (Hz' : (z + 1) `mod` 256 = 0).
    { apply Z_byte_zero. destruct (decide (Z_byte (z + 1) = x00)); [assumption | tauto]. }
    f_equal.
    assert (Hd : (z + 1) ≫ 8 = z ≫ 8 + 1).
    { rewrite !Z.shiftr_div_pow2 by lia. change (2 ^ 8) with 256.
      Z.div_mod_to_equations. lia. }
    rewrite Hd. apply IH.
    + apply Z.shiftr_nonneg. exact Hz.
    + rewrite Z.shiftr_div_pow2 by lia. change (2 ^ 8) with 256.
      Z.div_mod_to_equations. lia.
Qed.

Lemma le_bytes_8 (v : Z) : rev (le_bytes 8 v) = binary.PutUint64 v.
Proof.
  unfold binary.PutUint64, binary.PutUint32. cbn [le_bytes rev app].
  rewrite !Z.shiftr_shiftr by lia. reflexivity.
Qed.

Lemma le_bytes_zero (n : nat) : le_bytes n 0 = replicate n x00.
Proof. induction n as [| n IH]; [reflexivity |]. cbn [le_bytes replicate]. rewrite Z.shiftr_0_l, IH. reflexivity. Qed.

(** A counter whose last eight bytes start at zero holds, after [i]
    increments, [i] in its last eight bytes, and its first bytes are as
    they were, for every [i] below [2 ^ 64]. *)
Lemma iter_increment_low (front : list byte) (i : nat) :
  Z.of_nat i < 2 ^ 64 →
  Nat.iter i increment (front ++ replicate 8 x00)
  = front ++ binary.PutUint64 (Z.of_nat i).
Proof.
  induction i as [| i IH]; intros Hi.
  - cbn [Nat.iter nat_rect]. rewrite <- le_bytes_8, le_bytes_zero. reflexivity.
  - rewrite Nat.iter_succ, IH by lia. unfold increment.
    rewrite <- !le_bytes_8, rev_app_distr, rev_involutive.
    rewrite increment_rev_low by (change (256 ^ Z.of_nat 8) with (2 ^ 64); lia).
    rewrite rev_app_distr, rev_involutive. do 3 f_equal. lia.
Qed.

(** A counter of sixteen bytes 0xFF wraps around to sixteen zero
    bytes. *)
Example counter_wraps :
  increment (replicate 16 xff) = replicate 16 x00 ∧
  be_bytes 16 ((be_value (replicate 16 xff) + 1) `mod` 2 ^ 128) = replicate 16 x00.
Proof. split; vm_compute; reflexivity. Qed.

End counter_facts.

Section stream_facts.

Import cipher.

Lemma keyStream_from (c : aes.aesCipher) (ctr0 : list byte) (n : nat) :
  length ctr0 = 16 → ∀ k,
  keyStream {| BlockSize := aes.BlockSize; Encrypt := aes.Encrypt c |}
    (Nat.iter k increment ctr0) n
  = Returns (flat_map (λ i, aes.encryptBlockGo (aes.enc c) (Nat.iter i increment ctr0))
               (seq k n)).
Proof.
  intros H. induction n as [| n IH]; intros k; [reflexivity |].
  cbn [keyStream Encrypt seq flat_map]. unfold aes.Encrypt at 1.
  rewrite decide_False by (rewrite iter_increment_length, H; unfold aes.BlockSize; lia).
  cbn [and_then]. rewrite <- Nat.iter_succ. cbn [Encrypt] in IH. rewrite IH. reflexivity.
Qed.

Lemma block_of_length (key : array keyLength) (c : list byte) :
  length (block_of key c) = 16.
Proof.
  unfold block_of. destruct (NewCipher_256 (elems key) (elems_length key)) as [blk ->].
  apply encryptBlockGo_length.
Qed.

Lemma key_stream_length (key : array keyLength) (counter : nat → list byte) (n : nat) :
  length (key_stream key counter n) = 16 * n.
Proof.
  unfold key_stream.
  assert (H : ∀ k, length (flat_map (λ i, block_of key (counter i)) (seq k n)) = 16 * n).
  { induction n as [| n IH]; intros k; [reflexivity |].
    cbn [seq flat_map]. rewrite length_app, block_of_length, IH. lia. }
  apply H.
Qed.

Lemma key_stream_more (key : array keyLength) (counter : nat → list byte) (n m : nat) :
  n ≤ m → ∃ rest, key_stream key counter m = key_stream key counter n ++ rest.
Proof.
  intros H. replace m with (n + (m - n)) by lia. unfold key_stream.
  rewrite seq_app, flat_map_app. eexists. reflexivity.
Qed.

Lemma key_stream_ext (key : array keyLength) (f g : nat → list byte) (n : nat) :
  (∀ i, i < n → f i = g i) → key_stream key f n = key_stream key g n.
Proof.
  intros H. unfold key_stream. rewrite !flat_map_concat_map. f_equal.
  apply map_ext_in. intros i Hi. apply in_seq in Hi. rewrite H by lia. reflexivity.
Qed.

Lemma blocks_least (len n : nat) : len ≤ 16 * n → blocks len ≤ n.
Proof.
  intros H. unfold blocks.
  pose proof (Nat.div_mod_eq (len + 16 - 1) 16).
  pose proof (Nat.mod_upper_bound (len + 16 - 1) 16). lia.
Qed.

Lemma XORBytes_app_r (x ks rest : list byte) :
  length x ≤ length ks → XORBytes x (ks ++ rest) = XORBytes x ks.
Proof.
  unfold XORBytes. revert ks. induction x as [| a x IH]; intros [| k ks] H; cbn in *;
    [destruct rest; reflexivity | reflexivity | lia |].
  rewrite IH by lia. reflexivity.
Qed.

Lemma XORBytes_take (n : nat) (x ks : list byte) :
  XORBytes (take n x) ks = take n (XORBytes x ks).
Proof.
  unfold XORBytes. revert x ks. induction n as [| n IH]; intros [| a x] [| k ks]; cbn;
    try reflexivity.
  rewrite IH. reflexivity.
Qed.

Lemma xor_byte_swap (a k m : Z) :
  (0 ≤ a < 256)%Z → (0 ≤ k < 256)%Z → (0 ≤ m < 256)%Z →
  Z_byte (Z.lxor (byte_Z (Z_byte (Z.lxor a m))) k)
  = Z_byte (Z.lxor (byte_Z (Z_byte (Z.lxor a k))) m).
Proof.
  intros Ha Hk Hm.
  rewrite !byte_Z_Z_byte, !Z.mod_small by (apply lxor_byte_range; assumption).
  apply (f_equal Z_byte). rewrite !Z.lxor_assoc. apply (f_equal (Z.lxor a)), Z.lxor_comm.
Qed.

(** Changing one byte of the input by an xor changes that byte of the
    output by the same xor, and no other. *)
Lemma XORBytes_insert (j : nat) (m : Z) (x ks : list byte) (a : byte) :
  (0 ≤ m < 256)%Z → x !! j = Some a → length x ≤ length ks →
  ∃ a', XORBytes x ks !! j = Some a' ∧
    XORBytes (<[j := Z_byte (Z.lxor (byte_Z a) m)]> x) ks
    = <[j := Z_byte (Z.lxor (byte_Z a') m)]> (XORBytes x ks).
Proof.
  intros Hm. unfold XORBytes. revert x ks.
  induction j as [| j IH]; intros [| b x] [| k ks] Hj Hlen; cbn in *; try discriminate;
    try lia.
  - injection Hj as ->. eexists. split; [reflexivity |]. f_equal.
    apply xor_byte_swap; [apply byte_Z_range | apply byte_Z_range | exact Hm].
  - destruct (IH x ks Hj ltac:(lia)) as (a' & Ha' & Heq).
    exists a'. split; [exact Ha' |]. f_equal. exact Heq.
Qed.

Lemma xor_byte_cancel (a b k : byte) :
  Z_byte (Z.lxor (byte_Z (Z_byte (Z.lxor (byte_Z a) (byte_Z k))))
                 (byte_Z (Z_byte (Z.lxor (byte_Z b) (byte_Z k)))))
  = Z_byte (Z.lxor (byte_Z a) (byte_Z b)).
Proof.
  pose proof (byte_Z_range a). pose proof (byte_Z_range b). pose proof (byte_Z_range k).
  rewrite !byte_Z_Z_byte, !Z.mod_small by (apply lxor_byte_range; assumption).
  apply (f_equal Z_byte).
  rewrite (Z.lxor_comm (byte_Z b)), Z.lxor_assoc, <- (Z.lxor_assoc (byte_Z k)).
  rewrite Z.lxor_nilpotent, Z.lxor_0_l. reflexivity.
Qed.

(** Two inputs under one key stream: the xor of the outputs is the xor
    of the inputs. *)
Lemma XORBytes_same_stream (x y ks : list byte) :
  length x ≤ length ks → length y ≤ length ks →
  XORBytes (XORBytes x ks) (XORBytes y ks) = XORBytes x y.
Proof.
  unfold XORBytes. revert y ks.
  induction x as [| a x IH]; intros [| b y] [| k ks] Hx Hy; cbn in *;
    try reflexivity; try lia.
  rewrite xor_byte_cancel, IH by lia. reflexivity.
Qed.

(** [xorA256CTR] with its key stream written out: block [i] of the
    stream is the encryption of the IV incremented [i] times. *)
Lemma xorA256CTR_stream (source : slice) (key : array keyLength) (iv : array ivLength)
    (h : heap) :
  xorA256CTR source key iv h
  = (Returns (Some (length h)),
     h ++ [XORBytes (contents h source)
             (key_stream key (λ i, Nat.iter i increment (elems iv))
                (blocks (length (contents h source))))]).
Proof.
  destruct (NewCipher_256 (elems key) (elems_length key)) as [c Hc].
  pose proof (keyStream_from c (elems iv) (blocks (length (contents h source)))
                (elems_length iv) 0) as Hks.
  pose proof (key_stream_length key (λ i, Nat.iter i increment (elems iv))
                (blocks (length (contents h source)))) as Hlen.
  pose proof (blocks_cover (length (contents h source))) as Hcov.
  unfold key_stream, block_of in *. rewrite Hc in *.
  unfold xorA256CTR. rewrite Hc.
  unfold bind, load, make, lift, ret, cipher.XORKeyStream, cipher.ofAES, cipher.NewCTR.
  cbn [fmap option_fmap option_map cipher.BlockSize].
  rewrite decide_False by (rewrite (elems_length iv); unfold ivLength, aes.BlockSize; lia).
  unfold bind, load, lift, store, raise.
  rewrite contents_make. cbn [contents cipher.b cipher.counter cipher.BlockSize].
  rewrite list_lookup_middle by reflexivity. cbn [default from_option id].
  rewrite length_replicate, decide_False by lia.
  unfold aes.BlockSize, blocks in *. cbn [Nat.iter nat_rect] in Hks. rewrite Hks.
  rewrite drop_ge by (rewrite length_replicate; lia). rewrite app_nil_r.
  rewrite insert_app_r_alt by lia. rewrite Nat.sub_diag. reflexivity.
Qed.

Lemma A256CTR_stream (key : array keyLength) (iv : array ivLength) (src : list byte)
    (n : nat) :
  length src ≤ 16 * n →
  A256CTR key iv src
  = XORBytes src (key_stream key (λ i, Nat.iter i increment (elems iv)) n).
Proof.
  intros Hn. unfold A256CTR. rewrite xorA256CTR_stream, (contents_fresh [src]).
  cbn [contents lookup list_lookup default from_option id].
  destruct (key_stream_more key (λ i, Nat.iter i increment (elems iv))
              (blocks (length src)) n (blocks_least _ _ Hn)) as [rest ->].
  rewrite XORBytes_app_r; [reflexivity |].
  rewrite key_stream_length. apply blocks_cover.
Qed.

End stream_facts.

(** ** Package attachment: inverting the outcomes *)

Section outcome_facts.

Lemma Encrypt_cached (plaintext : slice) (w : world) (d : decodedKeys) :
  decoded (obj w) = Some d →
  Encrypt plaintext w
  = let c := A256CTR (key d) (iv d) (contents (mem w) plaintext) in
    (Returns (Some (length (mem w))),
     {| obj := with_SHA256 (obj w)
                 (base64.EncodeToString base64.RawStdEncoding (elems (sha256.Sum256 c)));
        mem := mem w ++ [c] |}).
Proof.
  intros Hd. rewrite Encrypt_eq, decodeKeys_eq, Hd. cbn [snd]. rewrite Hd. reflexivity.
Qed.

(** A call of [Encrypt] that returns has found or made a cache. *)
Lemma Encrypt_returns_inv (plaintext ciphertext : slice) (w w' : world) :
  Encrypt plaintext w = (Returns ciphertext, w') →
  ∃ d,
    (decoded (obj w) = Some d ∨
     decoded (obj w) = None ∧ (decode_fields (obj w)).2 = Some d) ∧
    ciphertext = Some (length (mem w)) ∧
    let c := A256CTR (key d) (iv d) (contents (mem w) plaintext) in
    w' = {| obj := with_SHA256 (with_decoded (obj w) (Some d))
                     (base64.EncodeToString base64.RawStdEncoding
                        (elems (sha256.Sum256 c)));
            mem := mem w ++ [c] |}.
Proof.
  rewrite Encrypt_eq, decodeKeys_eq. cbv zeta.
  destruct (decoded (obj w)) as [d |] eqn:E; cbn [snd].
  - rewrite E. intros [= <- <-]. exists d. split; [left; reflexivity |].
    split; [reflexivity |].
    assert (Hw : with_decoded (obj w) (Some d) = obj w)
      by (rewrite <- E; apply with_decoded_same).
    rewrite Hw. reflexivity.
  - cbn [obj mem decoded with_decoded].
    destruct (decode_fields (obj w)).2 as [d |] eqn:E2; [| discriminate].
    intros [= <- <-]. exists d. split; [right; split; reflexivity |].
    split; reflexivity.
Qed.

Lemma Decrypt_cached (ciphertext : slice) (w : world) (d : decodedKeys) :
  decoded (obj w) = Some d → Version (obj w) = "v2" →
  JSONWebKey.Algorithm (Key (obj w)) = "A256CTR" →
  Decrypt ciphertext w
  = if digest_ok (obj w) (contents (mem w) ciphertext)
    then (Returns (Some (length (mem w)), None), after_xor w d ciphertext)
    else (Returns (None, Some HashMismatch), w).
Proof.
  intros Hd Hv Ha. rewrite Decrypt_eq, decodeKeys_eq, Hd, Hv, Ha. cbv zeta.
  rewrite !decide_False by same. cbn [fst snd]. rewrite Hd.
  destruct (digest_ok _ _); reflexivity.
Qed.

(** A call of [Decrypt] that returns no error has passed the three
    checks and found or made a cache without error. *)
Lemma Decrypt_returns_inv (ciphertext result : slice) (w w' : world) :
  Decrypt ciphertext w = (Returns (result, None), w') →
  ∃ d,
    Version (obj w) = "v2" ∧ JSONWebKey.Algorithm (Key (obj w)) = "A256CTR" ∧
    digest_ok (obj w) (contents (mem w) ciphertext) = true ∧
    (decoded (obj w) = Some d ∨
     decoded (obj w) = None ∧ decode_fields (obj w) = (None, Some d)) ∧
    result = Some (length (mem w)) ∧
    w' = {| obj := with_decoded (obj w) (Some d);
            mem := mem w ++ [A256CTR (key d) (iv d) (contents (mem w) ciphertext)] |}.
Proof.
  rewrite Decrypt_eq. cbv zeta.
  case_decide as Hv; [discriminate |]. case_decide as Ha; [discriminate |].
  destruct (digest_ok (obj w) (contents (mem w) ciphertext)) eqn:Hdig; cbn [negb];
    [| discriminate].
  rewrite decodeKeys_eq.
  destruct (decoded (obj w)) as [d |] eqn:E; cbn [fst snd].
  - rewrite E. unfold after_xor. intros [= <- <-]. exists d.
    assert (Hw : with_decoded (obj w) (Some d) = obj w)
      by (rewrite <- E; apply with_decoded_same).
    rewrite Hw. repeat split; try reflexivity; try assumption.
    left. reflexivity.
  - destruct (decode_fields (obj w)) as [[e |] [d |]] eqn:E2; cbn [fst snd];
      cbn [obj mem decoded with_decoded]; try discriminate.
    unfold after_xor. cbn [obj mem]. intros [= <- <-]. exists d.
    repeat split; try reflexivity; try assumption.
    right. split; reflexivity.
Qed.

(** The key and IV fields decide what [decode_fields] gives; it gives no
    error only together with a cache. *)
Lemma decode_fields_ok (ef : EncryptedFile) :
  (decode_fields ef).1 = None → is_Some (decode_fields ef).2.
Proof.
  unfold decode_fields. repeat case_decide; cbn [fst snd]; try discriminate.
  destruct (base64.decodeQuanta base64.RawURLEncoding _ 0 [] []).2; cbn [fst snd];
    [discriminate |]. intros _. eexists. reflexivity.
Qed.

Lemma digest_ok_with_decoded (ef : EncryptedFile) (d : option decodedKeys)
    (data : list byte) :
  digest_ok (with_decoded ef d) data = digest_ok ef data.
Proof. reflexivity. Qed.

Lemma contents_insert (h : heap) (l : nat) (x : list byte) :
  l < length h → contents (<[l := x]> h) (Some l) = x.
Proof. intros H. cbn [contents]. rewrite list_lookup_insert_eq by exact H. reflexivity. Qed.

Lemma decodeQuanta_line_feed (enc : base64.Encoding) src si dbuf out :
  base64.decodeMap enc "010"%byte = 0xFF%Z →
  base64.decodeQuanta enc ("010"%byte :: src) si dbuf out
  = base64.decodeQuanta enc src (S si) dbuf out.
Proof.
  intros H. cbn [base64.decodeQuanta]. rewrite H.
  rewrite decide_False by same. rewrite decide_True by (left; reflexivity).
  reflexivity.
Qed.

End outcome_facts.

(** ** Further properties of the package *)

Section further.

(** X1. A descriptor made by [NewEncryptedFile] and used for [Encrypt]
    can be handed to a receiver without its cache: on the transmitted
    fields alone, and on any buffer that holds the ciphertext bytes,
    [Decrypt] returns the plaintext without error, and the cache it
    builds from the key and IV fields is the one the sender had. *)
Theorem Decrypt_transmitted_roundtrip
    (r r' : rand.Reader) (ef : EncryptedFile) (h h' : heap)
    (plaintext ciphertext arrived : slice) (w1 : world) :
  NewEncryptedFile r = (Returns ef, r') →
  Encrypt plaintext {| obj := ef; mem := h |} = (Returns ciphertext, w1) →
  contents h' arrived = contents (mem w1) ciphertext →
  ∃ result w2,
    Decrypt arrived {| obj := transmitted (obj w1); mem := h' |}
    = (Returns (result, None), w2) ∧
    contents (mem w2) result = contents h plaintext ∧
    decoded (obj w2) = decoded ef.
Proof.
  intros Hnew Henc Harr.
  destruct (NewEncryptedFile_inv _ _ _ Hnew) as (k & v & _ & _ & _ & _ & ->).
  rewrite (Encrypt_cached _ _ {| key := k; iv := v |}) in Henc by reflexivity.
  cbv zeta in Henc. cbn [obj mem key iv] in Henc. injection Henc as <- <-.
  cbn [mem obj] in *. rewrite contents_fresh in Harr.
  set (c := A256CTR k v (contents h plaintext)) in *.
  rewrite Decrypt_eq, decodeKeys_eq. cbv zeta. unfold transmitted.
  cbn [obj mem with_decoded with_SHA256 Version Key JSONWebKey.Algorithm decoded].
  rewrite !decide_False by same.
  rewrite Harr, (digest_ok_encoded _ c (sha256.Sum256 c)) by reflexivity.
  rewrite bool_decide_eq_true_2 by reflexivity. cbn [negb].
  rewrite (decode_fields_encoded _ {| key := k; iv := v |}) by reflexivity.
  cbn [fst snd obj mem decoded with_decoded].
  eexists _, _. split; [reflexivity |].
  unfold after_xor. cbn [obj mem key iv decoded]. rewrite contents_fresh, Harr.
  split; [apply A256CTR_involutive | reflexivity].
Qed.

Lemma Decrypt_transmitted_roundtrip_witness :
  let w1 := (Encrypt (Some 0) {| obj := sample_file; mem := [sample_message] |}).2 in
  ∃ result w2,
    Decrypt (Some 0) {| obj := transmitted (obj w1);
                        mem := [contents (mem w1) (Some 1)] |}
    = (Returns (result, None), w2) ∧
    contents (mem w2) result = contents [sample_message] (Some 0) ∧
    decoded (obj w2) = decoded sample_file.
Proof.
  intros w1.
  apply (Decrypt_transmitted_roundtrip sample_random (drop 40 sample_random)
           sample_file [sample_message] _ (Some 0) (Some 1) (Some 0)).
  - reflexivity.
  - vm_compute. reflexivity.
  - reflexivity.
Defined.

(** X2. A [Decrypt] that reports an error leaves the store as it was: no
    buffer is made. When the error is UnsupportedVersion,
    UnsupportedAlgorithm or HashMismatch the descriptor is unchanged too:
    nothing is decoded or cached before the digest is verified. The
    descriptor changes on an error only when it had no cache and key and
    IV fields of the right lengths, and then only by getting a cache. *)
Theorem Decrypt_failure_leaves_world
    (w w' : world) (ciphertext result : slice) (e : error) :
  Decrypt ciphertext w = (Returns (result, Some e), w') →
  mem w' = mem w ∧
  (e = UnsupportedVersion ∨ e = UnsupportedAlgorithm ∨ e = HashMismatch → w' = w) ∧
  (w' ≠ w →
   (e = InvalidKey ∨ e = InvalidInitVector) ∧
   decoded (obj w) = None ∧ is_Some (decoded (obj w')) ∧
   String.length (JSONWebKey.Key (Key (obj w))) = 43 ∧
   String.length (InitVector (obj w)) = 22).
Proof.
  intros H.
  assert (Hmain : w' = w ∨
    (e = InvalidKey ∨ e = InvalidInitVector) ∧
    decoded (obj w) = None ∧ is_Some (decoded (obj w')) ∧
    String.length (JSONWebKey.Key (Key (obj w))) = 43 ∧
    String.length (InitVector (obj w)) = 22 ∧ mem w' = mem w).
  { revert H. rewrite Decrypt_eq. cbv zeta.
    case_decide as Hv; [intros [= <- <- <-]; left; reflexivity |].
    case_decide as Ha; [intros [= <- <- <-]; left; reflexivity |].
    destruct (negb _); [intros [= <- <- <-]; left; reflexivity |].
    rewrite decodeKeys_eq.
    destruct (decoded (obj w)) as [d |] eqn:E; cbn [fst snd]; [rewrite E; discriminate |].
    assert (Hw : {| obj := with_decoded (obj w) None; mem := mem w |} = w).
    { rewrite <- E, with_decoded_same. apply world_eta. }
    unfold decode_fields. destruct base64_lengths as (-> & _ & ->).
    case_decide as Hkl; [cbn [fst snd]; rewrite Hw; intros [= <- <- <-]; left; reflexivity |].
    case_decide as Hvl; [cbn [fst snd]; rewrite Hw; intros [= <- <- <-]; left; reflexivity |].
    destruct (base64.decodeQuanta base64.RawURLEncoding _ 0 [] []).2 as [e1 |];
      cbn [fst snd].
    { intros [= <- <- <-]. right. cbn [obj mem decoded with_decoded].
      repeat split; try assumption; try reflexivity; [left; reflexivity | eexists; reflexivity]. }
    destruct (base64.decodeQuanta base64.RawStdEncoding _ 0 [] []).2 as [e1 |];
      cbn [fst snd obj decoded with_decoded]; [| discriminate].
    intros [= <- <- <-]. right. cbn [obj mem decoded with_decoded].
    repeat split; try assumption; try reflexivity; [right; reflexivity | eexists; reflexivity]. }
  destruct Hmain as [-> | (He & Hd & Hs & Hk & Hi & Hm)].
  - split; [reflexivity |]. split; [reflexivity |]. intros Hx. contradict Hx. reflexivity.
  - split; [exact Hm |]. split.
    + intros [-> | [-> | ->]]; destruct He; discriminate.
    + intros _. repeat split; assumption.
Qed.

Lemma Decrypt_failure_leaves_world_witness :
  let w := {| obj := received std_alphabet_key url_alphabet_iv;
              mem := [sample_message] |} in
  let w' := (Decrypt (Some 0) w).2 in
  mem w' = mem w ∧
  (InvalidKey = UnsupportedVersion ∨ InvalidKey = UnsupportedAlgorithm ∨
   InvalidKey = HashMismatch → w' = w) ∧
  (w' ≠ w →
   (InvalidKey = InvalidKey ∨ InvalidKey = InvalidInitVector) ∧
   decoded (obj w) = None ∧ is_Some (decoded (obj w')) ∧
   String.length (JSONWebKey.Key (Key (obj w))) = 43 ∧
   String.length (InitVector (obj w)) = 22).
Proof.
  intros w w'.
  apply (Decrypt_failure_leaves_world w w' (Some 0) None InvalidKey).
  vm_compute. reflexivity.
Defined.

(** X3. A descriptor fresh from [NewEncryptedFile] has an empty digest,
    so before any [Encrypt] its [Decrypt] rejects every ciphertext with
    HashMismatch and changes nothing. *)
Theorem Decrypt_before_Encrypt
    (r r' : rand.Reader) (ef : EncryptedFile) (h : heap) (ciphertext : slice) :
  NewEncryptedFile r = (Returns ef, r') →
  Decrypt ciphertext {| obj := ef; mem := h |}
  = (Returns (None, Some HashMismatch), {| obj := ef; mem := h |}).
Proof.
  intros Hnew.
  destruct (NewEncryptedFile_inv _ _ _ Hnew) as (k & v & _ & _ & _ & _ & ->).
  rewrite Decrypt_eq. cbn [obj Version Key JSONWebKey.Algorithm].
  rewrite !decide_False by same. unfold digest_ok.
  cbn [obj Hashes SHA256 String.length].
  rewrite decide_True by discriminate. reflexivity.
Qed.

Lemma Decrypt_before_Encrypt_witness :
  Decrypt (Some 0) {| obj := sample_file; mem := [sample_message] |}
  = (Returns (None, Some HashMismatch), {| obj := sample_file; mem := [sample_message] |}).
Proof.
  apply (Decrypt_before_Encrypt sample_random (drop 40 sample_random)).
  reflexivity.
Defined.

(** X4. Whenever [Encrypt] returns, the digest field it leaves is the
    unpadded standard base64 encoding, 43 characters long, of the
    SHA-256 of the ciphertext it returns, and [checkHash] accepts that
    ciphertext. *)
Theorem Encrypt_digest (w w' : world) (plaintext ciphertext : slice) :
  Encrypt plaintext w = (Returns ciphertext, w') →
  SHA256 (Hashes (obj w'))
  = base64.EncodeToString base64.RawStdEncoding
      (elems (sha256.Sum256 (contents (mem w') ciphertext))) ∧
  String.length (SHA256 (Hashes (obj w'))) = 43 ∧
  checkHash ciphertext w' = (Returns true, w').
Proof.
  intros H. destruct (Encrypt_returns_inv _ _ _ _ H) as (d & _ & -> & ->).
  cbv zeta. cbn [obj mem with_SHA256 Hashes SHA256]. rewrite contents_fresh.
  split; [reflexivity |]. split.
  { rewrite EncodeToString_length, elems_length. reflexivity. }
  rewrite checkHash_eq. cbn [obj mem]. rewrite contents_fresh.
  rewrite (digest_ok_encoded _ _ (sha256.Sum256
             (A256CTR (key d) (iv d) (contents (mem w) plaintext)))) by reflexivity.
  rewrite bool_decide_eq_true_2 by reflexivity. reflexivity.
Qed.

Lemma Encrypt_digest_witness :
  let w' := (Encrypt (Some 0) {| obj := sample_file; mem := [sample_message] |}).2 in
  SHA256 (Hashes (obj w'))
  = base64.EncodeToString base64.RawStdEncoding
      (elems (sha256.Sum256 (contents (mem w') (Some 1)))) ∧
  String.length (SHA256 (Hashes (obj w'))) = 43 ∧
  checkHash (Some 1) w' = (Returns true, w').
Proof.
  intros w'.
  apply (Encrypt_digest {| obj := sample_file; mem := [sample_message] |} w' (Some 0)).
  vm_compute. reflexivity.
Defined.

(** X5. A second [Encrypt] on the same descriptor overwrites the digest:
    afterwards [Decrypt] returns the second plaintext for the second
    ciphertext, and rejects the first ciphertext with HashMismatch
    unless the two ciphertexts have the same SHA-256. *)
Theorem Encrypt_twice_digest (w w1 w2 : world) (p1 p2 c1 c2 : slice) :
  Version (obj w) = "v2" → JSONWebKey.Algorithm (Key (obj w)) = "A256CTR" →
  Encrypt p1 w = (Returns c1, w1) → Encrypt p2 w1 = (Returns c2, w2) →
  (∃ result w3,
     Decrypt c2 w2 = (Returns (result, None), w3) ∧
     contents (mem w3) result = contents (mem w1) p2) ∧
  (Decrypt c1 w2).1 =
    if decide (sha256.Sum256 (contents (mem w2) c1)
               = sha256.Sum256 (contents (mem w2) c2))
    then Returns (Some (length (mem w2)), None)
    else Returns (None, Some HashMismatch).
Proof.
  intros Hv Ha H1 H2.
  destruct (Encrypt_returns_inv _ _ _ _ H1) as (d & _ & -> & ->). cbv zeta in *.
  rewrite (Encrypt_cached _ _ d) in H2 by reflexivity.
  cbv zeta in H2. cbn [obj mem] in H2. injection H2 as <- <-.
  set (x1 := A256CTR (key d) (iv d) (contents (mem w) p1)).
  set (x2 := A256CTR (key d) (iv d) (contents (mem w ++ [x1]) p2)).
  rewrite !(Decrypt_cached _ _ d) by (try reflexivity; assumption).
  cbn [obj mem]. rewrite !contents_fresh.
  rewrite contents_old by (rewrite length_app; cbn [length]; lia).
  rewrite contents_fresh.
  rewrite !(digest_ok_encoded _ _ (sha256.Sum256 x2)) by reflexivity.
  rewrite (bool_decide_eq_true_2 (sha256.Sum256 x2 = sha256.Sum256 x2)) by reflexivity.
  split.
  - eexists _, _. split; [reflexivity |]. unfold after_xor. cbn [obj mem].
    rewrite !contents_fresh. apply A256CTR_involutive.
  - case_decide as Hs.
    + rewrite bool_decide_eq_true_2 by (symmetry; exact Hs). reflexivity.
    + rewrite bool_decide_eq_false_2 by (intros Hx; apply Hs; symmetry; exact Hx).
      reflexivity.
Qed.

Lemma Encrypt_twice_digest_witness :
  let w := {| obj := sample_file; mem := [sample_message; []] |} in
  let w1 := (Encrypt (Some 0) w).2 in
  let w2 := (Encrypt (Some 1) w1).2 in
  (∃ result w3,
     Decrypt (Some 3) w2 = (Returns (result, None), w3) ∧
     contents (mem w3) result = contents (mem w1) (Some 1)) ∧
  (Decrypt (Some 2) w2).1 =
    if decide (sha256.Sum256 (contents (mem w2) (Some 2))
               = sha256.Sum256 (contents (mem w2) (Some 3)))
    then Returns (Some (length (mem w2)), None)
    else Returns (None, Some HashMismatch).
Proof.
  intros w w1 w2.
  apply (Encrypt_twice_digest w w1 w2 (Some 0) (Some 1) (Some 2) (Some 3)).
  - reflexivity.
  - reflexivity.
  - vm_compute. reflexivity.
  - vm_compute. reflexivity.
Defined.

Lemma flip_bit_length (i : nat) (data : list byte) :
  length (flip_bit i data) = length data.
Proof.
  unfold flip_bit. destruct (data !! (i / 8)); [apply length_insert | reflexivity].
Qed.

(** Counter mode on a ciphertext with one bit flipped gives the
    plaintext with that bit flipped. *)
Lemma A256CTR_flip_bit (key : array keyLength) (iv : array ivLength)
    (src : list byte) (i : nat) :
  A256CTR key iv (flip_bit i src) = flip_bit i (A256CTR key iv src).
Proof.
  rewrite (A256CTR_stream key iv (flip_bit i src) (blocks (length src)))
    by (rewrite flip_bit_length; apply blocks_cover).
  rewrite (A256CTR_stream key iv src (blocks (length src))) by apply blocks_cover.
  set (ks := key_stream key _ _).
  assert (Hks : length src ≤ length ks).
  { unfold ks. rewrite key_stream_length. apply blocks_cover. }
  unfold flip_bit. destruct (src !! (i / 8)) as [a |] eqn:E.
  - assert (Hm : (0 ≤ 1 ≪ Z.of_nat (i `mod` 8) < 256)%Z).
    { pose proof (Nat.mod_upper_bound i 8 ltac:(lia)) as Hlt.
      rewrite Z.shiftl_1_l. split; [apply Z.pow_nonneg; lia |].
      change 256%Z with (2 ^ 8)%Z. apply Z.pow_lt_mono_r; lia. }
    destruct (XORBytes_insert (i / 8) _ src ks a Hm E Hks) as (a' & -> & ->).
    reflexivity.
  - assert (Hn : cipher.XORBytes src ks !! (i / 8) = None).
    { apply lookup_ge_None. rewrite XORBytes_length. apply lookup_ge_None in E. lia. }
    rewrite Hn. reflexivity.
Qed.

(** X6. [Encrypt] used twice on one descriptor uses the same key stream
    twice: the xor of the two ciphertexts is the xor of the two
    plaintexts, up to the length of the shorter. *)
Theorem Encrypt_twice_key_stream (w w1 w2 : world) (p1 p2 c1 c2 : slice) :
  Encrypt p1 w = (Returns c1, w1) → Encrypt p2 w1 = (Returns c2, w2) →
  cipher.XORBytes (contents (mem w2) c1) (contents (mem w2) c2)
  = cipher.XORBytes (contents (mem w) p1) (contents (mem w1) p2).
Proof.
  intros H1 H2.
  destruct (Encrypt_returns_inv _ _ _ _ H1) as (d & _ & -> & ->). cbv zeta in *.
  rewrite (Encrypt_cached _ _ d) in H2 by reflexivity.
  cbv zeta in H2. cbn [obj mem] in H2. injection H2 as <- <-.
  cbn [obj mem].
  set (x1 := contents (mem w) p1).
  set (x2 := contents (mem w ++ [A256CTR (key d) (iv d) x1]) p2).
  rewrite contents_fresh.
  rewrite contents_old by (rewrite length_app; cbn [length]; lia).
  rewrite contents_fresh.
  rewrite (A256CTR_stream _ _ x1 (length x1 + length x2)) by lia.
  rewrite (A256CTR_stream _ _ x2 (length x1 + length x2)) by lia.
  apply XORBytes_same_stream; rewrite key_stream_length; lia.
Qed.

Lemma Encrypt_twice_key_stream_witness :
  let w := {| obj := sample_file; mem := [sample_message; sample_random] |} in
  let w1 := (Encrypt (Some 0) w).2 in
  let w2 := (Encrypt (Some 1) w1).2 in
  cipher.XORBytes (contents (mem w2) (Some 2)) (contents (mem w2) (Some 3))
  = cipher.XORBytes (contents (mem w) (Some 0)) (contents (mem w1) (Some 1)).
Proof.
  intros w w1 w2.
  apply (Encrypt_twice_key_stream w w1 w2 (Some 0) (Some 1) (Some 2) (Some 3)).
  - vm_compute. reflexivity.
  - vm_compute. reflexivity.
Defined.

(** X7. The digest is the only protection of the ciphertext. When
    [Decrypt] accepts a ciphertext, it also accepts the ciphertext with
    any one bit flipped once the digest field is replaced by the digest
    of the changed bytes, and the plaintext it returns is the first
    plaintext with the same bit flipped. *)
Theorem Decrypt_malleable (w w1 : world) (l : nat) (result : slice) (i : nat) :
  l < length (mem w) →
  Decrypt (Some l) w = (Returns (result, None), w1) →
  let c' := flip_bit i (contents (mem w) (Some l)) in
  let w' := {| obj := with_SHA256 (obj w)
                        (base64.EncodeToString base64.RawStdEncoding
                           (elems (sha256.Sum256 c')));
               mem := <[l := c']> (mem w) |} in
  ∃ result' w1',
    Decrypt (Some l) w' = (Returns (result', None), w1') ∧
    contents (mem w1') result' = flip_bit i (contents (mem w1) result).
Proof.
  intros Hl H. cbv zeta.
  destruct (Decrypt_returns_inv _ _ _ _ H) as (d & Hv & Ha & _ & Hd & -> & ->).
  set (c := contents (mem w) (Some l)).
  rewrite Decrypt_eq, decodeKeys_eq. cbv zeta.
  cbn [obj mem with_SHA256 Version Key JSONWebKey.Algorithm decoded].
  rewrite Hv, Ha, !decide_False by same.
  rewrite contents_insert by exact Hl.
  rewrite (digest_ok_encoded _ _ (sha256.Sum256 (flip_bit i c))) by reflexivity.
  rewrite bool_decide_eq_true_2 by reflexivity. cbn [negb].
  assert (Hout : ∀ ef,
    contents (mem (after_xor {| obj := ef; mem := <[l := flip_bit i c]> (mem w) |} d
                     (Some l))) (Some (length (<[l := flip_bit i c]> (mem w))))
    = flip_bit i (contents (mem w ++ [A256CTR (key d) (iv d) c]) (Some (length (mem w))))).
  { intros ef. unfold after_xor. cbn [obj mem].
    rewrite !contents_fresh, contents_insert by exact Hl.
    apply A256CTR_flip_bit. }
  destruct Hd as [Hd | [Hd Hf]].
  - rewrite Hd. cbn [fst snd obj decoded with_SHA256]. rewrite Hd.
    eexists _, _. split; [reflexivity |]. cbn [obj mem]. apply Hout.
  - rewrite Hd.
    change (decode_fields (with_SHA256 (obj w) _)) with (decode_fields (obj w)).
    rewrite Hf. cbn [fst snd obj mem decoded with_decoded].
    eexists _, _. split; [reflexivity |]. cbn [obj mem]. apply Hout.
Qed.

Lemma Decrypt_malleable_witness :
  let w := {| obj := received (JSONWebKey.Key (Key sample_file)) (InitVector sample_file);
              mem := [sample_message] |} in
  let w1 := (Decrypt (Some 0) w).2 in
  let c' := flip_bit 3 (contents (mem w) (Some 0)) in
  let w' := {| obj := with_SHA256 (obj w)
                        (base64.EncodeToString base64.RawStdEncoding
                           (elems (sha256.Sum256 c')));
               mem := <[0 := c']> (mem w) |} in
  ∃ result' w1',
    Decrypt (Some 0) w' = (Returns (result', None), w1') ∧
    contents (mem w1') result' = flip_bit 3 (contents (mem w1) (Some 1)).
Proof.
  intros w w1.
  apply (Decrypt_malleable w w1 0 (Some 1) 3).
  - cbn. lia.
  - vm_compute. reflexivity.
Defined.

(** X8. With a cache, [Decrypt] does not look at the key and IV fields:
    two descriptors with the same cache, version, algorithm and digest
    give, on ciphertexts with the same bytes, the same error or
    plaintexts with the same bytes, whatever their key and IV fields
    hold. *)
Theorem Decrypt_cache_shadows_fields
    (w1 w2 : world) (c1 c2 : slice) (d : decodedKeys) :
  decoded (obj w1) = Some d → decoded (obj w2) = Some d →
  Version (obj w1) = Version (obj w2) →
  JSONWebKey.Algorithm (Key (obj w1)) = JSONWebKey.Algorithm (Key (obj w2)) →
  Hashes (obj w1) = Hashes (obj w2) →
  contents (mem w1) c1 = contents (mem w2) c2 →
  ∃ r1 r2 e w1' w2',
    Decrypt c1 w1 = (Returns (r1, e), w1') ∧ Decrypt c2 w2 = (Returns (r2, e), w2') ∧
    contents (mem w1') r1 = contents (mem w2') r2.
Proof.
  intros Hd1 Hd2 Hv Ha Hh Hc. rewrite !Decrypt_eq, !decodeKeys_eq, Hd1, Hd2. cbv zeta.
  cbn [fst snd]. rewrite Hd1, Hd2, Hv, Ha, Hc.
  assert (Hdig : digest_ok (obj w1) (contents (mem w2) c2)
                 = digest_ok (obj w2) (contents (mem w2) c2)).
  { unfold digest_ok, digest_field. rewrite Hh. reflexivity. }
  rewrite Hdig.
  case_decide; [eexists _, _, _, _, _; repeat split; reflexivity |].
  case_decide; [eexists _, _, _, _, _; repeat split; reflexivity |].
  destruct (negb _); [eexists _, _, _, _, _; repeat split; reflexivity |].
  eexists _, _, _, _, _. split; [reflexivity |]. split; [reflexivity |].
  unfold after_xor. cbn [obj mem]. rewrite !contents_fresh, Hc. reflexivity.
Qed.

Lemma Decrypt_cache_shadows_fields_witness :
  let w1 := (Encrypt (Some 0) {| obj := sample_file; mem := [sample_message] |}).2 in
  let w2 := {| obj := {| Key := {| JSONWebKey.Key := "";
                                  JSONWebKey.Algorithm := "A256CTR";
                                  JSONWebKey.Extractable := false;
                                  JSONWebKey.KeyType := "";
                                  JSONWebKey.KeyOps := [] |};
                         InitVector := "not base64";
                         Hashes := Hashes (obj w1);
                         Version := "v2";
                         decoded := Some sample_keys |};
               mem := mem w1 |} in
  ∃ r1 r2 e w1' w2',
    Decrypt (Some 1) w1 = (Returns (r1, e), w1') ∧
    Decrypt (Some 1) w2 = (Returns (r2, e), w2') ∧
    contents (mem w1') r1 = contents (mem w2') r2.
Proof.
  intros w1 w2.
  apply (Decrypt_cache_shadows_fields w1 w2 (Some 1) (Some 1) sample_keys);
    vm_compute; reflexivity.
Defined.

(** X9. [decodeKeys] accepts a key field that encodes 31 bytes only: a
    line feed followed by the 42 characters that encode them has the 43
    characters asked for, the decoder skips the line feed, and the last
    byte of the key stays zero. No error is reported. *)
Theorem decodeKeys_line_feed
    (ef : EncryptedFile) (h : heap) (short : list byte) (v : array ivLength) :
  length short = 31 →
  decoded ef = None →
  JSONWebKey.Key (Key ef)
  = String line_feed (base64.EncodeToString base64.RawURLEncoding short) →
  InitVector ef = base64.EncodeToString base64.RawStdEncoding (elems v) →
  ∃ k,
    elems k = short ++ [x00] ∧
    decodeKeys {| obj := ef; mem := h |}
    = (Returns None,
       {| obj := with_decoded ef (Some {| key := k; iv := v |}); mem := h |}).
Proof.
  intros Hlen Hnone Hk Hv. exists (fill keyLength short). split.
  { rewrite fill_short by (unfold keyLength; lia). rewrite Hlen. reflexivity. }
  rewrite decodeKeys_eq. cbn [obj mem]. rewrite Hnone.
  assert (Hb : ∀ s, String.list_byte_of_string (String line_feed s)
                    = "010"%byte :: String.list_byte_of_string s) by reflexivity.
  unfold decode_fields, key_field, iv_field. rewrite Hk, Hv, Hb.
  cbn [String.length].
  rewrite !EncodeToString_length, Hlen, (elems_length v), !decide_False by same.
  rewrite decodeQuanta_line_feed by reflexivity.
  rewrite !EncodeToString_bytes.
  rewrite decodeQuanta_Encode by apply RawURLEncoding_valid.
  rewrite decodeQuanta_Encode by apply RawStdEncoding_valid.
  cbn [fst snd app]. rewrite fill_elems. reflexivity.
Qed.

Lemma decodeKeys_line_feed_witness :
  ∃ k,
    elems k = take 31 sample_random ++ [x00] ∧
    decodeKeys {| obj := received
                    (String line_feed
                       (base64.EncodeToString base64.RawURLEncoding (take 31 sample_random)))
                    (InitVector sample_file);
                  mem := [] |}
    = (Returns None,
       {| obj := with_decoded
                   (received
                      (String line_feed
                         (base64.EncodeToString base64.RawURLEncoding
                            (take 31 sample_random)))
                      (InitVector sample_file))
                   (Some {| key := k; iv := iv sample_keys |});
          mem := [] |}).
Proof.
  apply (decodeKeys_line_feed _ [] (take 31 sample_random) (iv sample_keys));
    reflexivity.
Defined.

(** X10. [NewEncryptedFile] returns exactly when the random source
    delivers 40 bytes, and it takes exactly those 40; when the source
    fails at either read it panics with the error of the source. *)
Theorem NewEncryptedFile_entropy (r : rand.Reader) :
  match NewEncryptedFile r with
  | (Returns ef, r') => 40 ≤ length r ∧ r' = drop 40 r
  | (Panics p, r') => length r < 40 ∧ p = PanicError EntropyError
  end.
Proof.
  unfold NewEncryptedFile, bind. rewrite genA256CTR_eq.
  case_decide as H32; [| split; [lia | reflexivity]].
  case_decide as H8; rewrite length_drop in H8.
  - unfold ret. rewrite drop_drop. split; [lia | reflexivity].
  - split; [lia | reflexivity].
Qed.

(** X11. The output of [xorA256CTR] at a position depends on the key,
    the IV and the input up to that position only: on a prefix of a
    source it stores the prefix of what it stores for the source. *)
Theorem xorA256CTR_prefix
    (key : array keyLength) (iv : array ivLength) (h1 h2 : heap) (s1 s2 : slice)
    (n : nat) :
  contents h2 s2 = take n (contents h1 s1) →
  ∃ r1 h1' r2 h2',
    xorA256CTR s1 key iv h1 = (Returns r1, h1') ∧
    xorA256CTR s2 key iv h2 = (Returns r2, h2') ∧
    contents h2' r2 = take n (contents h1' r1).
Proof.
  intros H. rewrite !xorA256CTR_spec. eexists _, _, _, _.
  split; [reflexivity |]. split; [reflexivity |].
  rewrite !contents_fresh, H.
  set (src := contents h1 s1).
  rewrite (A256CTR_stream key iv (take n src) (blocks (length src))).
  - rewrite (A256CTR_stream key iv src (blocks (length src))) by apply blocks_cover.
    apply XORBytes_take.
  - rewrite length_take. pose proof (blocks_cover (length src)) as Hc.
    fold (blocks (length src)) in Hc. lia.
Qed.

Lemma xorA256CTR_prefix_witness :
  ∃ r1 h1' r2 h2',
    xorA256CTR (Some 0) (key sample_keys) (iv sample_keys) [sample_random]
    = (Returns r1, h1') ∧
    xorA256CTR (Some 1) (key sample_keys) (iv sample_keys) [[]; take 20 sample_random]
    = (Returns r2, h2') ∧
    contents h2' r2 = take 20 (contents h1' r1).
Proof.
  apply (xorA256CTR_prefix (key sample_keys) (iv sample_keys) [sample_random]
           [[]; take 20 sample_random] (Some 0) (Some 1) 20).
  reflexivity.
Defined.

(** X12. The key stream of [xorA256CTR]: block [i] is the AES-256
    encryption, under the key, of the sixteen bytes of the number
    (IV + i) modulo 2^128, first byte highest. The counter runs over all
    sixteen bytes of the IV and wraps around. *)
Theorem xorA256CTR_counter
    (source : slice) (key : array keyLength) (iv : array ivLength) (h : heap) :
  xorA256CTR source key iv h
  = (Returns (Some (length h)),
     h ++ [cipher.XORBytes (contents h source)
             (key_stream key
                (λ i, be_bytes 16 ((be_value (elems iv) + Z.of_nat i) `mod` 2 ^ 128)%Z)
                (blocks (length (contents h source))))]).
Proof.
  rewrite xorA256CTR_stream.
  rewrite (key_stream_ext key (λ i, Nat.iter i cipher.increment (elems iv))
             (λ i, be_bytes 16 ((be_value (elems iv) + Z.of_nat i) `mod` 2 ^ 128)%Z));
    [reflexivity |].
  intros i _. rewrite iter_increment, (elems_length iv). reflexivity.
Qed.

(** X13. On a descriptor fresh from [NewEncryptedFile], block [i] of the
    key stream of [Encrypt] encrypts the eight random bytes of the IV
    followed by [i] as a 64-bit big-endian number: for up to 2^64 blocks
    the counter stays within the eight bytes that [genA256CTR] leaves
    zero. *)
Theorem Encrypt_fresh_counter
    (r r' : rand.Reader) (ef : EncryptedFile) (h : heap) (plaintext : slice) :
  NewEncryptedFile r = (Returns ef, r') →
  (Z.of_nat (blocks (length (contents h plaintext))) ≤ 2 ^ 64)%Z →
  ∃ ciphertext w',
    Encrypt plaintext {| obj := ef; mem := h |} = (Returns ciphertext, w') ∧
    contents (mem w') ciphertext
    = cipher.XORBytes (contents h plaintext)
        (key_stream (fill keyLength (take 32 r))
           (λ i, take 8 (drop 32 r) ++ binary.PutUint64 (Z.of_nat i))
           (blocks (length (contents h plaintext)))).
Proof.
  intros Hnew Hsize.
  destruct (NewEncryptedFile_inv _ _ _ Hnew) as (k & v & _ & H8 & -> & -> & ->).
  rewrite (Encrypt_cached _ _ {| key := fill keyLength (take 32 r);
                                  iv := fill ivLength (take 8 (drop 32 r)) |})
    by reflexivity.
  cbv zeta. cbn [obj mem key iv]. eexists _, _. split; [reflexivity |].
  cbn [mem]. rewrite contents_fresh.
  rewrite (A256CTR_stream _ _ _ (blocks (length (contents h plaintext))))
    by apply blocks_cover.
  f_equal. apply key_stream_ext. intros i Hi.
  rewrite fill_short by (rewrite length_take; unfold ivLength; lia).
  rewrite length_take, Nat.min_l by exact H8.
  apply iter_increment_low. lia.
Qed.

Lemma Encrypt_fresh_counter_witness :
  ∃ ciphertext w',
    Encrypt (Some 0) {| obj := sample_file; mem := [sample_message] |}
    = (Returns ciphertext, w') ∧
    contents (mem w') ciphertext
    = cipher.XORBytes (contents [sample_message] (Some 0))
        (key_stream (fill keyLength (take 32 sample_random))
           (λ i, take 8 (drop 32 sample_random) ++ binary.PutUint64 (Z.of_nat i))
           (blocks (length (contents [sample_message] (Some 0))))).
Proof.
  apply (Encrypt_fresh_counter sample_random (drop 40 sample_random) sample_file).
  - reflexivity.
  - vm_compute. discriminate.
Defined.

(** X14. [Encrypt] of an empty plaintext, nil or not, under any key and
    IV: the ciphertext is a new empty buffer, not the nil slice, and the
    digest stored is that of the empty byte sequence. *)
Theorem Encrypt_empty (w : world) (plaintext : slice) (d : decodedKeys) :
  decoded (obj w) = Some d → contents (mem w) plaintext = [] →
  ∃ l w',
    Encrypt plaintext w = (Returns (Some l), w') ∧
    mem w' !! l = Some [] ∧ mem w !! l = None ∧
    SHA256 (Hashes (obj w')) = empty_digest.
Proof.
  intros Hd Hp. rewrite (Encrypt_cached _ _ d Hd), Hp. cbv zeta.
  assert (Hx : A256CTR (key d) (iv d) [] = []).
  { apply length_zero_iff_nil. rewrite A256CTR_length. reflexivity. }
  rewrite Hx. eexists _, _. split; [reflexivity |]. cbn [obj mem with_SHA256 Hashes SHA256].
  split; [apply list_lookup_middle; reflexivity |].
  split; [apply lookup_ge_None; lia |].
  vm_compute. reflexivity.
Qed.

Lemma Encrypt_empty_witness :
  ∃ l w',
    Encrypt None {| obj := sample_file; mem := [sample_message] |}
    = (Returns (Some l), w') ∧
    mem w' !! l = Some [] ∧ [sample_message] !! l = None ∧
    SHA256 (Hashes (obj w')) = empty_digest.
Proof.
  apply (Encrypt_empty {| obj := sample_file; mem := [sample_message] |} None sample_keys);
    reflexivity.
Defined.

(** X15. A [Decrypt] that succeeded can be repeated: on the same
    ciphertext it succeeds again, leaves the descriptor as it is, and
    returns a new buffer, not the first one, with the same plaintext;
    the first plaintext buffer is left alone. *)
Theorem Decrypt_repeatable (w w1 : world) (ciphertext r1 : slice) :
  Decrypt ciphertext w = (Returns (r1, None), w1) →
  ∃ r2 w2,
    Decrypt ciphertext w1 = (Returns (r2, None), w2) ∧
    r2 ≠ r1 ∧ obj w2 = obj w1 ∧
    contents (mem w2) r2 = contents (mem w1) r1 ∧
    contents (mem w2) r1 = contents (mem w1) r1.
Proof.
  intros H.
  destruct (Decrypt_returns_inv _ _ _ _ H) as (d & Hv & Ha & Hdig & _ & -> & ->).
  rewrite (Decrypt_cached _ _ d) by (try reflexivity; assumption).
  cbn [obj mem]. rewrite digest_ok_with_decoded, contents_after_xor, Hdig.
  eexists _, _. split; [reflexivity |].
  split; [intros [= Hx]; rewrite length_app in Hx; cbn [length] in Hx; lia |].
  split; [reflexivity |]. unfold after_xor. cbn [obj mem key iv].
  rewrite contents_after_xor, (contents_fresh (mem w ++ _)), contents_fresh.
  split; [reflexivity |].
  rewrite contents_old by (rewrite length_app; cbn [length]; lia).
  apply contents_fresh.
Qed.

Lemma Decrypt_repeatable_witness :
  let w := {| obj := received (JSONWebKey.Key (Key sample_file)) (InitVector sample_file);
              mem := [sample_message] |} in
  let w1 := (Decrypt (Some 0) w).2 in
  ∃ r2 w2,
    Decrypt (Some 0) w1 = (Returns (r2, None), w2) ∧
    r2 ≠ Some 1 ∧ obj w2 = obj w1 ∧
    contents (mem w2) r2 = contents (mem w1) (Some 1) ∧
    contents (mem w2) (Some 1) = contents (mem w1) (Some 1).
Proof.
  intros w w1.
  apply (Decrypt_repeatable w w1 (Some 0) (Some 1)).
  vm_compute. reflexivity.
Defined.

(** X16. The cache is written once: on a descriptor with a cache, none
    of [decodeKeys], [checkHash], [Encrypt] and [Decrypt] changes it,
    whatever the key and IV fields hold by then. *)
Theorem cache_written_once (w : world) (d : decodedKeys) (s : slice) :
  decoded (obj w) = Some d →
  decoded (obj (decodeKeys w).2) = Some d ∧
  decoded (obj (checkHash s w).2) = Some d ∧
  decoded (obj (Encrypt s w).2) = Some d ∧
  decoded (obj (Decrypt s w).2) = Some d.
Proof.
  intros Hd. rewrite checkHash_eq, (Encrypt_cached _ _ d Hd), Decrypt_eq, decodeKeys_eq, Hd.
  cbv zeta. cbn [fst snd obj with_SHA256 decoded]. rewrite Hd.
  repeat split; try reflexivity.
  repeat case_decide; try exact Hd. destruct (negb _); exact Hd.
Qed.

Lemma cache_written_once_witness :
  let w := {| obj := sample_file; mem := [sample_message] |} in
  decoded (obj (decodeKeys w).2) = Some sample_keys ∧
  decoded (obj (checkHash (Some 0) w).2) = Some sample_keys ∧
  decoded (obj (Encrypt (Some 0) w).2) = Some sample_keys ∧
  decoded (obj (Decrypt (Some 0) w).2) = Some sample_keys.
Proof.
  intros w. apply (cache_written_once w sample_keys (Some 0)). reflexivity.
Defined.

(** X17. For a digest field that is the unpadded standard base64
    encoding of a hash, [checkHash] answers whether that hash is the
    SHA-256 of the ciphertext, and changes nothing. *)
Theorem checkHash_encoded (w : world) (ciphertext : slice) (hash : array hashLength) :
  SHA256 (Hashes (obj w))
  = base64.EncodeToString base64.RawStdEncoding (elems hash) →
  checkHash ciphertext w
  = (Returns (bool_decide (hash = sha256.Sum256 (contents (mem w) ciphertext))), w).
Proof.
  intros H. rewrite checkHash_eq, (digest_ok_encoded _ _ hash H). reflexivity.
Qed.

Lemma checkHash_encoded_witness :
  let w := {| obj := received "" ""; mem := [sample_message] |} in
  checkHash (Some 0) w
  = (Returns (bool_decide (sha256.Sum256 sample_message
                           = sha256.Sum256 (contents (mem w) (Some 0)))), w).
Proof.
  intros w. apply (checkHash_encoded w (Some 0) (sha256.Sum256 sample_message)).
  vm_compute. reflexivity.
Defined.

(** X18. The cache is transparent for fields that encode a key and an
    IV: on a descriptor without cache whose key and IV fields are the
    encodings of a key and an IV, [Encrypt] does exactly what it does on
    the descriptor with that key and IV cached, and [Decrypt] returns
    the same slice and error. *)
Theorem cache_transparent (ef : EncryptedFile) (d : decodedKeys) (h : heap) (s : slice) :
  decoded ef = None →
  JSONWebKey.Key (Key ef)
  = base64.EncodeToString base64.RawURLEncoding (elems (key d)) →
  InitVector ef = base64.EncodeToString base64.RawStdEncoding (elems (iv d)) →
  Encrypt s {| obj := ef; mem := h |}
  = Encrypt s {| obj := with_decoded ef (Some d); mem := h |} ∧
  (Decrypt s {| obj := ef; mem := h |}).1
  = (Decrypt s {| obj := with_decoded ef (Some d); mem := h |}).1 ∧
  mem (Decrypt s {| obj := ef; mem := h |}).2
  = mem (Decrypt s {| obj := with_decoded ef (Some d); mem := h |}).2.
Proof.
  intros Hnone Hk Hv.
  pose proof (decode_fields_encoded ef d Hk Hv) as Hf.
  rewrite !Encrypt_eq, !Decrypt_eq, !decodeKeys_eq. cbv zeta.
  cbn [obj mem decoded with_decoded Version Key]. rewrite Hnone, Hf.
  cbn [fst snd obj mem decoded with_decoded]. rewrite !digest_ok_with_decoded.
  split; [reflexivity |].
  repeat case_decide; try (split; reflexivity).
  destruct (negb _); split; reflexivity.
Qed.

Lemma cache_transparent_witness :
  let ef := received (JSONWebKey.Key (Key sample_file)) (InitVector sample_file) in
  Encrypt (Some 0) {| obj := ef; mem := [sample_message] |}
  = Encrypt (Some 0) {| obj := with_decoded ef (Some sample_keys);
                        mem := [sample_message] |} ∧
  (Decrypt (Some 0) {| obj := ef; mem := [sample_message] |}).1
  = (Decrypt (Some 0) {| obj := with_decoded ef (Some sample_keys);
                         mem := [sample_message] |}).1 ∧
  mem (Decrypt (Some 0) {| obj := ef; mem := [sample_message] |}).2
  = mem (Decrypt (Some 0) {| obj := with_decoded ef (Some sample_keys);
                             mem := [sample_message] |}).2.
Proof.
  intros ef. apply (cache_transparent ef sample_keys [sample_message] (Some 0));
    reflexivity.
Defined.

(** X19. The errors of the base64 decoder never leave the package:
    [decodeKeys] reports only InvalidKey and InvalidInitVector, and the
    error of [Decrypt] is always one of the five errors of the
    package. *)
Theorem package_errors (w : world) (ciphertext : slice) :
  (∀ e, (decodeKeys w).1 = Returns (Some e) → e = InvalidKey ∨ e = InvalidInitVector) ∧
  (∀ result e w',
     Decrypt ciphertext w = (Returns (result, Some e), w') →
     e = UnsupportedVersion ∨ e = UnsupportedAlgorithm ∨ e = HashMismatch ∨
     e = InvalidKey ∨ e = InvalidInitVector).
Proof.
  assert (Hd : ∀ e, (decodeKeys w).1 = Returns (Some e) →
                    e = InvalidKey ∨ e = InvalidInitVector).
  { intros e. rewrite decodeKeys_eq.
    destruct (decoded (obj w)); cbn [fst]; [discriminate |].
    unfold decode_fields. repeat case_decide; cbn [fst].
    - intros [= <-]. left. reflexivity.
    - intros [= <-]. right. reflexivity.
    - destruct (base64.decodeQuanta base64.RawURLEncoding _ 0 [] []).2; cbn [fst].
      + intros [= <-]. left. reflexivity.
      + destruct (base64.decodeQuanta base64.RawStdEncoding _ 0 [] []).2;
          [intros [= <-]; right; reflexivity | discriminate]. }
  split; [exact Hd |].
  intros result e w'. rewrite Decrypt_eq. cbv zeta.
  case_decide; [intros [= <- <- <-]; tauto |].
  case_decide; [intros [= <- <- <-]; tauto |].
  destruct (negb _); [intros [= <- <- <-]; tauto |].
  destruct (decodeKeys w).1 as [[e0 |] | p] eqn:E.
  - intros [= <- <- <-]. destruct (Hd e0 eq_refl) as [-> | ->]; tauto.
  - destruct (decoded (obj (decodeKeys w).2)); discriminate.
  - discriminate.
Qed.

(** X20. The round trip holds for every descriptor of version "v2" and
    algorithm "A256CTR" on which [Encrypt] returns, fresh or not, with
    or without cache: [Decrypt] of the ciphertext returns the
    plaintext, without error. *)
Theorem Decrypt_Encrypt_any (w w1 : world) (plaintext ciphertext : slice) :
  Version (obj w) = "v2" → JSONWebKey.Algorithm (Key (obj w)) = "A256CTR" →
  Encrypt plaintext w = (Returns ciphertext, w1) →
  ∃ result w2,
    Decrypt ciphertext w1 = (Returns (result, None), w2) ∧
    contents (mem w2) result = contents (mem w) plaintext.
Proof.
  intros Hv Ha H.
  destruct (Encrypt_returns_inv _ _ _ _ H) as (d & _ & -> & ->). cbv zeta.
  rewrite (Decrypt_cached _ _ d) by (try reflexivity; assumption).
  cbn [obj mem]. rewrite contents_fresh.
  rewrite (digest_ok_encoded _ _ (sha256.Sum256
             (A256CTR (key d) (iv d) (contents (mem w) plaintext)))) by reflexivity.
  rewrite bool_decide_eq_true_2 by reflexivity.
  eexists _, _. split; [reflexivity |]. unfold after_xor. cbn [obj mem].
  rewrite !contents_fresh. apply A256CTR_involutive.
Qed.

Lemma Decrypt_Encrypt_any_witness :
  let w := {| obj := received (JSONWebKey.Key (Key sample_file)) (InitVector sample_file);
              mem := [sample_random] |} in
  let w1 := (Encrypt (Some 0) w).2 in
  ∃ result w2,
    Decrypt (Some 1) w1 = (Returns (result, None), w2) ∧
    contents (mem w2) result = contents (mem w) (Some 0).
Proof.
  intros w w1. apply (Decrypt_Encrypt_any w w1 (Some 0) (Some 1)).
  - reflexivity.
  - reflexivity.
  - vm_compute. reflexivity.
Defined.

(** X21. [Encrypt] looks at neither the version nor the algorithm: on a
    descriptor with another version or algorithm it encrypts all the
    same, and [Decrypt] on that descriptor then refuses the ciphertext
    with UnsupportedVersion, or else UnsupportedAlgorithm, and changes
    nothing. *)
Theorem Encrypt_ignores_version (w w1 : world) (plaintext ciphertext : slice) :
  Version (obj w) ≠ "v2" ∨ JSONWebKey.Algorithm (Key (obj w)) ≠ "A256CTR" →
  Encrypt plaintext w = (Returns ciphertext, w1) →
  Decrypt ciphertext w1
  = (Returns (None, Some (if decide (Version (obj w) ≠ "v2")
                          then UnsupportedVersion else UnsupportedAlgorithm)), w1).
Proof.
  intros Hbad H.
  destruct (Encrypt_returns_inv _ _ _ _ H) as (d & _ & -> & ->). cbv zeta.
  rewrite Decrypt_eq. cbn [obj with_SHA256 with_decoded Version Key].
  case_decide as Hv; [reflexivity |].
  rewrite decide_True; [reflexivity |]. destruct Hbad as [Hx | Hx]; [| exact Hx].
  contradict Hx. exact Hv.
Qed.

Lemma Encrypt_ignores_version_witness :
  let w := {| obj := {| Key := Key sample_file; InitVector := InitVector sample_file;
                        Hashes := Hashes sample_file; Version := "v1";
                        decoded := None |};
              mem := [sample_message] |} in
  let w1 := (Encrypt (Some 0) w).2 in
  Decrypt (Some 1) w1
  = (Returns (None, Some (if decide (Version (obj w) ≠ "v2")
                          then UnsupportedVersion else UnsupportedAlgorithm)), w1).
Proof.
  intros w w1. apply (Encrypt_ignores_version w w1 (Some 0) (Some 1)).
  - left. discriminate.
  - vm_compute. reflexivity.
Defined.

(** X22. [xorA256CTR] is its own inverse: run on its own output under
    the same key and IV it stores the bytes of the first source. Neither
    run panics, and each adds one buffer to the store. *)
Theorem xorA256CTR_twice
    (key : array keyLength) (iv : array ivLength) (h : heap) (source : slice) :
  ∃ r1 h1 r2 h2,
    xorA256CTR source key iv h = (Returns r1, h1) ∧
    xorA256CTR r1 key iv h1 = (Returns r2, h2) ∧
    contents h2 r2 = contents h source ∧
    length h2 = 2 + length h.
Proof.
  rewrite xorA256CTR_spec. eexists _, _, _, _. split; [reflexivity |].
  rewrite xorA256CTR_spec. split; [reflexivity |].
  rewrite (contents_fresh h), contents_fresh, A256CTR_involutive.
  split; [reflexivity |]. rewrite !length_app. cbn [length]. lia.
Qed.

End further.
